(** * A mirror crawler (wget-like), verified against its specification

    Shallow embedding of [main.go]: the path mapper [makeLocalPath], the
    link classifier [collectLinks], the link rewriter [rewriteLinks] and the
    goroutine body of [download], the latter as an interleaving transition
    system over the shared state of the [downloader] struct.

    The Go standard library ([strings], [path/filepath] on Unix, [net/url],
    [net/http]) and [golang.org/x/net/html] are not part of the program.
    [strings] and [path/filepath] are transcribed here as executable
    functions; URL resolution, the HTTP client and the HTML parser are
    parameters of the development. *)

From Stdlib Require Import ZArith Ascii.
From stdpp Require Import gmap strings list.

Local Open Scope Z_scope.
Local Set Warnings "-register-all".

(** ** Go's [strings] package (the three functions the program calls) *)
Module strings.

(** [len(s) >= len(suffix) && s[len(s)-len(suffix):] == suffix] *)
Definition HasSuffix (s suffix : string) : bool :=
  let n := String.length s in
  let k := String.length suffix in
  (k <=? n)%nat && String.eqb (String.substring (n - k) k s) suffix.

(** [strings.Contains(s, substr)]: some suffix of [s] starts with [substr]. *)
Fixpoint Contains (s substr : string) : bool :=
  String.prefix substr s ||
  match s with
  | EmptyString => false
  | String _ r => Contains r substr
  end.

(** [strings.Split(s, sep)] for a one-byte separator: the pieces between
    separators, in order; never empty ([Split("", "/")] is [[""]]). *)
Fixpoint Split (s : string) (sep : ascii) : list string :=
  match s with
  | EmptyString => [EmptyString]
  | String c r =>
      if Ascii.eqb c sep then EmptyString :: Split r sep
      else match Split r sep with
           | e :: es => String c e :: es
           | [] => [String c EmptyString]
           end
  end.

(** [strings.Join(elems, sep)] for a one-byte separator. *)
Fixpoint Join (elems : list string) (sep : ascii) : string :=
  match elems with
  | [] => EmptyString
  | [e] => e
  | e :: es => e +:+ String sep (Join es sep)
  end.

End strings.

(** ** Go's [path/filepath] on Unix (separator [/], no volume names) *)
Module filepath.

Definition Separator : ascii := "/"%char.

Definition IsPathSeparator (c : ascii) : bool := Ascii.eqb c Separator.

(** Does the path start with a separator? ([rooted] in [Clean],
    [baseSlashed]/[targSlashed] in [Rel]) *)
Definition slashed (path : string) : bool :=
  match path with
  | String c _ => IsPathSeparator c
  | EmptyString => false
  end.

(** One iteration of the loop of [Clean], on a whole path element. The
    output buffer is the stack [out] of the elements written so far, last
    written first; [..] sits in it only as a leading [../..] prefix of a
    path that is not rooted, the part [dotdot] protects in the Go code. *)
Definition clean_step (rooted : bool) (out : list string) (e : string)
  : list string :=
  if decide (e = "") then out              (* empty path element *)
  else if decide (e = ".") then out        (* . element *)
  else if decide (e = "..") then           (* .. element *)
    match out with
    | top :: rest =>
        if decide (top = "..")
        then (if rooted then out else ".." :: out)
        else rest                          (* can backtrack *)
    | [] => if rooted then out else [".."] (* cannot backtrack *)
    end
  else e :: out.                           (* real path element *)

Definition clean_elems (rooted : bool) (elems : list string) : list string :=
  rev (fold_left (clean_step rooted) elems []).

(** The buffer as a string; an empty result becomes ["."]. *)
Definition render (rooted : bool) (out : list string) : string :=
  let s := (if rooted then "/" else "") +:+ strings.Join out Separator in
  if decide (s = "") then "." else s.

(** [filepath.Clean] *)
Definition Clean (path : string) : string :=
  if decide (path = "") then "."
  else render (slashed path)
              (clean_elems (slashed path) (strings.Split path Separator)).

(** [filepath.Join]: the elements from the first non-empty one on are
    joined with separators and cleaned; all empty gives [""]. *)
Fixpoint Join (elem : list string) : string :=
  match elem with
  | [] => ""
  | e :: rest =>
      if decide (e = "") then Join rest
      else Clean (strings.Join elem Separator)
  end.

(** The suffix of one path element that starts at its last dot. *)
Fixpoint elem_ext (e : string) : string :=
  match e with
  | EmptyString => ""
  | String c r =>
      match elem_ext r with
      | EmptyString => if Ascii.eqb c "."%char then e else ""
      | x => x
      end
  end.

(** [filepath.Ext]: the suffix beginning at the final dot in the final
    element of [path]; empty if there is no dot. *)
Definition Ext (path : string) : string :=
  elem_ext (List.last (strings.Split path Separator) "").

(** A separator occurs in the string. *)
Fixpoint has_sep (s : string) : bool :=
  match s with
  | EmptyString => false
  | String c r => IsPathSeparator c || has_sep r
  end.

(** [path[:i+1]] for [i] the index of the last separator: the path up to
    and including its last separator. *)
Fixpoint dir_prefix (path : string) : string :=
  match path with
  | EmptyString => ""
  | String c r =>
      if IsPathSeparator c || has_sep r
      then String c (dir_prefix r)
      else ""
  end.

(** [filepath.Dir] *)
Definition Dir (path : string) : string := Clean (dir_prefix path).

(** The elements the comparison loop of [Rel] walks through: the pieces
    between separators, where a final separator ends the walk. *)
Definition rel_elems (s : string) : list string :=
  if decide (s = "") then []
  else
    let l := strings.Split s Separator in
    if decide (List.last l "" = "") then removelast l else l.

(** Positions both paths at their first differing elements; the flag
    tells whether the loop stopped on a difference ([break]) rather than
    on the end of one of the paths. *)
Fixpoint rel_common (b t : list string)
  : list string * list string * bool :=
  match b, t with
  | x :: b', y :: t' =>
      if decide (x = y) then rel_common b' t' else (b, t, true)
  | _, _ => (b, t, false)
  end.

(** [filepath.Rel]; [None] is the error "can't make targpath relative to
    basepath". *)
Definition Rel (basepath targpath : string) : option string :=
  let base := Clean basepath in
  let targ := Clean targpath in
  if decide (targ = base) then Some "."
  else
    let base := if decide (base = ".") then "" else base in
    if negb (Bool.eqb (slashed base) (slashed targ)) then None
    else
      let '(b', t', broke) := rel_common (rel_elems base) (rel_elems targ) in
      if broke && bool_decide (head b' = Some "..") then None
      else
        match b' with
        | [] => Some (strings.Join t' Separator)
        | _ :: _ =>
            (* base elements left: go up before going down *)
            Some (strings.Join (replicate (List.length b') ".." ++ t')
                               Separator)
        end.

End filepath.

(** ** [net/url]: the fields of [url.URL] the program reads or writes *)
Record URL := mkURL {
  Scheme : string;
  Host : string;
  Path : string;
  RawQuery : string;
  Fragment : string
}.

Global Instance URL_eq_dec : EqDecision URL.
Proof. solve_decision. Defined.

Definition set_Scheme (s : string) (u : URL) : URL :=
  mkURL s (Host u) (Path u) (RawQuery u) (Fragment u).

Definition set_Fragment (f : string) (u : URL) : URL :=
  mkURL (Scheme u) (Host u) (Path u) (RawQuery u) f.

(** The [String] method of [URL]: [scheme://host/path?query#fragment],
    without user info, opaque parts and percent-escaping, and without the
    [./] put before a path when nothing precedes it (the program gives
    every URL a scheme before it prints it). *)
Definition URL_String (u : URL) : string :=
  (if decide (Scheme u = "") then "" else Scheme u +:+ ":") +:+
  (if decide (Scheme u = "" ∧ Host u = "") then ""
   else (if decide (Host u = "" ∧ Path u = "") then "" else "//")
        +:+ Host u) +:+
  (if bool_decide (Path u ≠ "") && negb (filepath.slashed (Path u))
      && bool_decide (Host u ≠ "") then "/" else "") +:+
  Path u +:+
  (if decide (RawQuery u = "") then "" else "?" +:+ RawQuery u) +:+
  (if decide (Fragment u = "") then "" else "#" +:+ Fragment u).

(** ** The [downloader] struct: its configuration fields. The shared
    mutable fields ([visited], [visitedMu], [wg], [sem]) are part of the
    run state further down. *)
Record downloader := mkDownloader {
  maxDepth : Z;
  concurrencyLimit : Z;
  host : string;
  rootDir : string
}.

(** ** Path Mapper *)

(** [makeLocalPath] (main.go, lines 188-194) *)
Definition makeLocalPath (d : downloader) (u : URL) : string :=
  let path := filepath.Join [rootDir d; filepath.Clean (Path u)] in
  if bool_decide (Path u = "") || strings.HasSuffix (Path u) "/"
     || bool_decide (filepath.Ext path = "")
  then filepath.Join [path; "index.html"]
  else path.

(** ** [golang.org/x/net/html]: the document tree *)
Module html.

Inductive NodeType :=
| ErrorNode | TextNode | DocumentNode | ElementNode
| CommentNode | DoctypeNode | RawNode.

Global Instance NodeType_eq_dec : EqDecision NodeType.
Proof. solve_decision. Defined.

Record Attribute := mkAttr {
  Namespace : string;
  Key : string;
  Val : string
}.

Global Instance Attribute_eq_dec : EqDecision Attribute.
Proof. solve_decision. Defined.

(** [n.Attr[i].Val = v] *)
Definition set_Val (v : string) (a : Attribute) : Attribute :=
  mkAttr (Namespace a) (Key a) v.

(** A node with its children in sibling order ([FirstChild],
    [NextSibling]). *)
Inductive Node := mkNode {
  Type_ : NodeType;
  Data : string;
  Attr : list Attribute;
  Children : list Node
}.

End html.
Import html.

(** [traverse] (main.go, lines 218-223): calls [fn] on the node, then walks
    the children in order. The visitors of this program read the node's
    type, tag and attributes, write attribute values in place and update
    variables of the enclosing function: [fn n s] returns the attribute
    list of [n] after the call and the new value [s] of those variables. *)
Fixpoint traverse {S : Type} (fn : Node → S → list Attribute * S)
    (n : Node) (s : S) : Node * S :=
  match n with
  | mkNode ty data attr children =>
      let '(attr', s1) := fn n s in
      let '(children', s2) :=
        (fix siblings (cs : list Node) (s : S) : list Node * S :=
           match cs with
           | [] => ([], s)
           | c :: cs' =>
               let '(c', s') := traverse fn c s in
               let '(cs'', s'') := siblings cs' s' in
               (c' :: cs'', s'')
           end) children s1 in
      (mkNode ty data attr' children', s2)
  end.

(** ** [net/http]: what the program reads of a response *)
Record Response := mkResponse {
  Status : string;
  StatusCode : Z;
  ContentType : string;   (* [resp.Header.Get("Content-Type")] *)
  Body : string
}.

(** The pair [(resp, err)] returned by [client.Get]; [None] is [nil]. *)
Record GetResult := mkGetResult {
  resp : option Response;
  err : option string
}.

(** Go's [int] on a 64-bit platform: addition wraps around. *)
Definition int_wrap (z : Z) : Z := (z + 2 ^ 63) `mod` 2 ^ 64 - 2 ^ 63.
Definition int_add (a b : Z) : Z := int_wrap (a + b).

(** ** The goroutines started by [download] *)

(** How a goroutine returned (the final states of the Fetch Unit). *)
Inductive Outcome :=
| Skipped      (* line 101: depth > maxDepth *)
| Duplicate    (* line 109: the URL was visited already *)
| Errored      (* an error was printed and the goroutine returned *)
| Done.        (* the resource was saved *)

(** Where a goroutine stands in the body of [download] (lines 97-183). *)
Inductive PC :=
| PStart                  (* line 100, after [wg.Add(1)] and [go] *)
| PLock                   (* line 106: [d.visitedMu.Lock()] *)
| PCheck                  (* line 107: [if d.visited[urlStr]] *)
| PUnlockReturn           (* lines 108-109 *)
| PInsert                 (* line 111: [d.visited[urlStr] = true] *)
| PUnlock                 (* line 112 *)
| PAcquire                (* line 115: [d.sem <- struct{}{}] *)
| PGet                    (* line 119: [d.client.Get(urlStr)] *)
| PHandle (r : GetResult) (* lines 120-182, with the result of the call *)
| PRelease (o : Outcome)  (* the deferred [<-d.sem], then [wg.Done()] *)
| PDone (o : Outcome).

Record Task := mkTask {
  t_url : URL;
  t_depth : Z;
  t_pc : PC
}.

(** A call of [client.Get]: the calling goroutine, the URL string and the
    depth of its task. *)
Record Fetch := mkFetch {
  f_task : nat;
  f_url : string;
  f_depth : Z
}.

Inductive FileContent :=
| RawBody (body : string)   (* [io.Copy(f, body)] *)
| Rendered (doc : Node).    (* [html.Render(f, doc)] *)

(** The state shared by the goroutines of one run. *)
Record State := mkState {
  visited : gmap string bool;           (* [d.visited] *)
  visitedMu : option nat;               (* the holder of [d.visitedMu] *)
  sem : nat;                            (* values in the channel [d.sem] *)
  wg : Z;                               (* counter of [d.wg] *)
  tasks : list Task;                    (* the goroutines, in creation order *)
  fetched : list Fetch;                 (* the calls of [client.Get] so far *)
  saved : list (string * FileContent);  (* files written, latest first *)
  panicked : bool                       (* a goroutine panicked: the process
                                           is gone *)
}.

Definition set_pc (i : nat) (pc : PC) (s : State) : State :=
  mkState (visited s) (visitedMu s) (sem s) (wg s)
    (alter (λ t, mkTask (t_url t) (t_depth t) pc) i (tasks s))
    (fetched s) (saved s) (panicked s).

Definition set_visited (v : gmap string bool) (s : State) : State :=
  mkState v (visitedMu s) (sem s) (wg s) (tasks s) (fetched s) (saved s)
    (panicked s).

Definition set_visitedMu (m : option nat) (s : State) : State :=
  mkState (visited s) m (sem s) (wg s) (tasks s) (fetched s) (saved s)
    (panicked s).

Definition set_sem (n : nat) (s : State) : State :=
  mkState (visited s) (visitedMu s) n (wg s) (tasks s) (fetched s) (saved s)
    (panicked s).

Definition add_wg (k : Z) (s : State) : State :=
  mkState (visited s) (visitedMu s) (sem s) (wg s + k) (tasks s) (fetched s)
    (saved s) (panicked s).

Definition log_fetch (f : Fetch) (s : State) : State :=
  mkState (visited s) (visitedMu s) (sem s) (wg s) (tasks s)
    (fetched s ++ [f]) (saved s) (panicked s).

Definition write_file (path : string) (c : FileContent) (s : State) : State :=
  mkState (visited s) (visitedMu s) (sem s) (wg s) (tasks s) (fetched s)
    ((path, c) :: saved s) (panicked s).

Definition panic (s : State) : State :=
  mkState (visited s) (visitedMu s) (sem s) (wg s) (tasks s) (fetched s)
    (saved s) true.

(** The caller's part of [download] (lines 96-97): [d.wg.Add(1)] and the
    [go] statement. *)
Definition go_download (u : URL) (depth : Z) (s : State) : State :=
  mkState (visited s) (visitedMu s) (sem s) (wg s + 1)
    (tasks s ++ [mkTask u depth PStart])
    (fetched s) (saved s) (panicked s).

(** A loop [for _, u := range us { d.download(u, depth) }]. *)
Definition spawn_all (us : list URL) (depth : Z) (s : State) : State :=
  foldl (λ s u, go_download u depth s) s us.

(** [wg.Done()] and the end of the goroutine. *)
Definition finish (i : nat) (o : Outcome) (s : State) : State :=
  set_pc i (PDone o) (add_wg (-1) s).

Definition empty_state : State := mkState ∅ None 0 0 [] [] [] false.

Section crawler.

(** [base.Parse(ref)]: parse [ref] and resolve it against [base]
    ([net/url], RFC 3986); [None] is a parse error. *)
Variable URL_Parse : URL → string → option URL.

Variable d : downloader.

(** *** Link Classifier *)

(** The loop over [n.Attr] in [collectLinks] (lines 249-275), from the
    position reached: [continue] goes on with the rest, [break] returns. *)
Fixpoint collect_attrs (base : URL) (attrKey : string) (isPageLink : bool)
    (attrs : list Attribute) (acc : list URL * list URL)
  : list URL * list URL :=
  match attrs with
  | [] => acc
  | a :: rest =>
      if decide (Key a ≠ attrKey)
      then collect_attrs base attrKey isPageLink rest acc
      else
        match URL_Parse base (Val a) with
        | None => collect_attrs base attrKey isPageLink rest acc
        | Some absURL =>
            let absURL :=
              if decide (Scheme absURL = "")
              then set_Scheme (Scheme base) absURL else absURL in
            if bool_decide (Host absURL ≠ host d)
               || (bool_decide (Scheme absURL ≠ "http")
                   && bool_decide (Scheme absURL ≠ "https"))
            then collect_attrs base attrKey isPageLink rest acc
            else
              let absURL := set_Fragment "" absURL in
              if isPageLink
              then (acc.1, acc.2 ++ [absURL])
              else (acc.1 ++ [absURL], acc.2)
        end
  end.

(** The visitor of [collectLinks] (lines 226-276); the pair is
    [(resources, pages)]. *)
Definition collect_visit (base : URL) (n : Node) (acc : list URL * list URL)
  : list Attribute * (list URL * list URL) :=
  if decide (Type_ n ≠ ElementNode) then (Attr n, acc)
  else if decide (Data n = "a")
  then (Attr n, collect_attrs base "href" true (Attr n) acc)
  else if decide (Data n = "link")
  then (Attr n, collect_attrs base "href" false (Attr n) acc)
  else if decide (Data n = "script" ∨ Data n = "img")
  then (Attr n, collect_attrs base "src" false (Attr n) acc)
  else (Attr n, acc).

(** [collectLinks] (lines 225-279) *)
Definition collectLinks (doc : Node) (base : URL) : list URL * list URL :=
  (traverse (collect_visit base) doc ([], [])).2.

(** *** Link Rewriter *)

(** The loop over [n.Attr] in [rewriteLinks] (lines 297-320). *)
Fixpoint rewrite_attrs (base : URL) (currentLocalPath : string)
    (attrKey : string) (attrs : list Attribute) : list Attribute :=
  match attrs with
  | [] => []
  | a :: rest =>
      if decide (Key a ≠ attrKey)
      then a :: rewrite_attrs base currentLocalPath attrKey rest
      else
        match URL_Parse base (Val a) with
        | None => a :: rewrite_attrs base currentLocalPath attrKey rest
        | Some absURL =>
            if decide (Host absURL ≠ host d)
            then a :: rewrite_attrs base currentLocalPath attrKey rest
            else
              let targetLocalPath := makeLocalPath d absURL in
              match filepath.Rel (filepath.Dir currentLocalPath)
                                 targetLocalPath with
              | None => a :: rewrite_attrs base currentLocalPath attrKey rest
              | Some relPath => set_Val relPath a :: rest
              end
        end
  end.

(** The visitor of [rewriteLinks] (lines 282-321); it keeps no state. *)
Definition rewrite_visit (base : URL) (currentLocalPath : string)
    (n : Node) (s : unit) : list Attribute * unit :=
  if decide (Type_ n ≠ ElementNode) then (Attr n, s)
  else if decide (Data n = "a" ∨ Data n = "link")
  then (rewrite_attrs base currentLocalPath "href" (Attr n), s)
  else if decide (Data n = "script" ∨ Data n = "img")
  then (rewrite_attrs base currentLocalPath "src" (Attr n), s)
  else (Attr n, s).

(** [rewriteLinks] (lines 281-322): the document after the in-place
    rewriting. *)
Definition rewriteLinks (doc : Node) (base : URL) (currentLocalPath : string)
  : Node :=
  (traverse (rewrite_visit base currentLocalPath) doc tt).1.

(** *** Fetch Unit and Crawl Scheduler *)

(** [d.client.Get]: the nth call of the run, on a URL string. *)
Variable client_Get : nat → string → GetResult.
(** [html.Parse] on a response body; [None] is a parse error. *)
Variable html_Parse : string → option Node.
(** Whether [os.MkdirAll] and [os.Create] succeed on a path. *)
Variable MkdirAll_ok : string → bool.
Variable Create_ok : string → bool.

(** [saveNonHTML] (lines 197-205) *)
Definition saveNonHTML (localPath : string) (body : string) (s : State)
  : State :=
  if Create_ok localPath then write_file localPath (RawBody body) s else s.

(** [saveHTML] (lines 208-215); the flag is [err == nil]. *)
Definition saveHTML (localPath : string) (doc : Node) (s : State)
  : State * bool :=
  if Create_ok localPath then (write_file localPath (Rendered doc) s, true)
  else (s, false).

(** Lines 120-182 of the goroutine [i], once [client.Get] has returned
    [r]: up to the [return], the deferred calls excluded. *)
Definition handle (i : nat) (t : Task) (r : GetResult) (s : State) : State :=
  match resp r with
  | None => panic s         (* line 121: [resp.Status] with [resp == nil] *)
  | Some rsp =>
      if decide (err r ≠ None) then set_pc i (PRelease Errored) s
      else if decide (StatusCode rsp ≠ 200) then set_pc i (PRelease Errored) s
      else
        let localPath := makeLocalPath d (t_url t) in
        if negb (MkdirAll_ok (filepath.Dir localPath))
        then set_pc i (PRelease Errored) s
        else if negb (strings.Contains (ContentType rsp) "text/html")
        then set_pc i (PRelease Done) (saveNonHTML localPath (Body rsp) s)
        else
          match html_Parse (Body rsp) with
          | None => set_pc i (PRelease Errored) s
          | Some doc =>
              let '(resources, pages) := collectLinks doc (t_url t) in
              let s1 := spawn_all resources (t_depth t) s in
              let doc' := rewriteLinks doc (t_url t) localPath in
              let '(s2, ok) := saveHTML localPath doc' s1 in
              let s3 := spawn_all pages (int_add (t_depth t) 1) s2 in
              set_pc i (PRelease (if ok then Done else Errored)) s3
          end
  end.

(** One atomic action of goroutine [i]; [None] when it is blocked, has
    returned, does not exist, or the process has panicked. *)
Definition step_task (i : nat) (s : State) : option State :=
  if panicked s then None
  else
    match tasks s !! i with
    | None => None
    | Some t =>
        let urlStr := URL_String (t_url t) in
        match t_pc t with
        | PStart =>
            if decide (t_depth t > maxDepth d) then Some (finish i Skipped s)
            else Some (set_pc i PLock s)
        | PLock =>
            match visitedMu s with
            | None => Some (set_pc i PCheck (set_visitedMu (Some i) s))
            | Some _ => None
            end
        | PCheck =>
            if default false (visited s !! urlStr)
            then Some (set_pc i PUnlockReturn s)
            else Some (set_pc i PInsert s)
        | PUnlockReturn => Some (finish i Duplicate (set_visitedMu None s))
        | PInsert =>
            Some (set_pc i PUnlock
                    (set_visited (<[urlStr := true]> (visited s)) s))
        | PUnlock => Some (set_pc i PAcquire (set_visitedMu None s))
        | PAcquire =>
            if decide (Z.of_nat (sem s) < concurrencyLimit d)
            then Some (set_pc i PGet (set_sem (S (sem s)) s))
            else None
        | PGet =>
            Some (set_pc i
                    (PHandle (client_Get (length (fetched s)) urlStr))
                    (log_fetch (mkFetch i urlStr (t_depth t)) s))
        | PHandle r => Some (handle i t r s)
        | PRelease o =>
            match sem s with
            | O => None
            | S n => Some (finish i o (set_sem n s))
            end
        | PDone _ => None
        end
    end.

(** One step of the run: some goroutine acts. *)
Definition step (s s' : State) : Prop := ∃ i, step_task i s = Some s'.

(** The run under a schedule: the goroutine to act at each step. *)
Fixpoint run (sched : list nat) (s : State) : option State :=
  match sched with
  | [] => Some s
  | i :: sched' =>
      match step_task i s with
      | Some s' => run sched' s'
      | None => None
      end
  end.

End crawler.

(** [main] (lines 43-92) up to [d.download(base, 0)]: the downloader and the
    state in which the first goroutine has just been started. [None] when
    [main] stops before that ([log.Fatal], or the panic of [make] in [new]
    on a negative capacity). [url_Parse] is [url.Parse]. *)
Definition main_start (url_Parse : string → option URL)
    (MkdirAll_ok : string → bool)
    (startURL : string) (conLimit maxDepth : Z) : option (downloader * State) :=
  if decide (startURL = "") then None
  else if decide (conLimit < 0) then None
  else
    match url_Parse startURL with
    | None => None
    | Some base =>
        let base :=
          if decide (Scheme base = "") then set_Scheme "https" base else base in
        let d := mkDownloader maxDepth conLimit (Host base) (Host base) in
        if negb (MkdirAll_ok (rootDir d)) then None
        else Some (d, go_download base 0 empty_state)
    end.

(** * Vocabulary of the specification and of the proofs *)

(** ** Paths *)

(** A real path element: not empty, not a dot segment, no separator. *)
Definition real (e : string) : Prop :=
  e ≠ "" ∧ e ≠ "." ∧ e ≠ ".." ∧ filepath.has_sep e = false.

(** The output buffers [Clean] can build (last element first): real
    elements, over a run of [..] at the bottom when the path is not
    rooted. *)
Fixpoint stk (rooted : bool) (out : list string) : Prop :=
  match out with
  | [] => True
  | x :: out' =>
      (real x ∧ stk rooted out')
      ∨ (x = ".." ∧ rooted = false ∧ Forall (eq "..") out')
  end.

(** Elements that [Clean] leaves in place or, for [..], handles. *)
Definition good (e : string) : Prop :=
  e ≠ "" ∧ e ≠ "." ∧ filepath.has_sep e = false.

(** The final element of a path: what follows its last separator. *)
Definition last_elem (path : string) : string :=
  List.last (strings.Split path filepath.Separator) "".

(** The URLs of a site: the path is empty or starts at the root, as in
    every URL with a host that [net/url] parses or resolves. *)
Definition url_path_ok (u : URL) : Prop :=
  Path u = "" ∨ filepath.slashed (Path u) = true.

(** The elements of the cleaned root directory and of the cleaned URL path. *)
Definition root_elems (d : downloader) : list string :=
  filepath.clean_elems false (strings.Split (rootDir d) filepath.Separator).

Definition path_elems (u : URL) : list string :=
  filepath.clean_elems true (strings.Split (Path u) filepath.Separator).

(** [path] in [makeLocalPath] before the index rule. *)
Definition joined (d : downloader) (u : URL) : string :=
  filepath.Join [rootDir d; filepath.Clean (Path u)].

(** The final segment of a path is a dot segment. *)
Definition dot_segment (e : string) : Prop := e = "." ∨ e = "..".

(** The URL path is empty, ends in a separator or has no file extension. *)
Definition directory_like (p : string) : bool :=
  bool_decide (p = "") || strings.HasSuffix p "/"
  || bool_decide (filepath.Ext p = "").

(** The index rule, read on the URL's path: directory-like paths get
    [index.html] under the joined path, the others map to the joined path
    itself. *)
Definition index_rule (d : downloader) (u : URL) : Prop :=
  makeLocalPath d u
  = if directory_like (Path u)
    then filepath.Join [joined d u; "index.html"]
    else joined d u.

(** [u1] is directory-like and mapped to the index file of its directory,
    and [u2] names that index file itself. *)
Definition index_alias (d : downloader) (u1 u2 : URL) : Prop :=
  makeLocalPath d u1 = filepath.Join [joined d u1; "index.html"]
  ∧ path_elems u2 = path_elems u1 ++ ["index.html"].

(** Distinct URLs of the mirror host map to distinct local files, index
    collapsing apart. *)
Definition distinct_files (d : downloader) : Prop :=
  ∀ u1 u2, Host u1 = host d → Host u2 = host d → u1 ≠ u2 →
           makeLocalPath d u1 = makeLocalPath d u2 →
           index_alias d u1 u2 ∨ index_alias d u2 u1.

(** ** Document trees and links *)

(** The nodes of a document in document order (pre-order), each with its
    subtree. *)
Fixpoint flatten (n : Node) : list Node :=
  match n with
  | mkNode _ _ _ children => n :: flat_map flatten children
  end.

(** The walk of [traverse] through a list of siblings. *)
Definition traverse_siblings {S : Type} (fn : Node → S → list Attribute * S)
  : list Node → S → list Node * S :=
  fix siblings (cs : list Node) (s : S) : list Node * S :=
    match cs with
    | [] => ([], s)
    | c :: cs' =>
        let '(c', s') := traverse fn c s in
        let '(cs'', s'') := siblings cs' s' in
        (c' :: cs'', s'')
    end.

(** A link the classifier keeps: on the mirror host, http or https, without
    fragment. *)
Definition kept_link (d : downloader) (u : URL) : Prop :=
  Host u = host d ∧ (Scheme u = "http" ∨ Scheme u = "https")
  ∧ Fragment u = "".

Section link_vocabulary.

Variable URL_Parse : URL → string → option URL.
Variable d : downloader.

(** The link an attribute value stands for, if the classifier keeps it:
    resolved against [base], scheme inherited, on the mirror host, http
    or https, fragment stripped. *)
Definition link_of (base : URL) (a : Attribute) : option URL :=
  match URL_Parse base (Val a) with
  | None => None
  | Some absURL =>
      let absURL :=
        if decide (Scheme absURL = "")
        then set_Scheme (Scheme base) absURL else absURL in
      if decide (Host absURL = host d
                 ∧ (Scheme absURL = "http" ∨ Scheme absURL = "https"))
      then Some (set_Fragment "" absURL)
      else None
  end.

(** The first attribute under the key [attrKey] that gives a link. *)
Definition first_link (base : URL) (attrKey : string)
    (attrs : list Attribute) : option URL :=
  head (omap (λ a, if decide (Key a = attrKey) then link_of base a else None)
             attrs).

(** The link of a node, tagged as a page link or not: anchors give page
    links from [href]; [link], [script] and [img] give resource links from
    [href], [src] and [src]. *)
Definition node_link (base : URL) (n : Node) : option (bool * URL) :=
  if decide (Type_ n = ElementNode) then
    if decide (Data n = "a")
    then pair true <$> first_link base "href" (Attr n)
    else if decide (Data n = "link")
    then pair false <$> first_link base "href" (Attr n)
    else if decide (Data n = "script" ∨ Data n = "img")
    then pair false <$> first_link base "src" (Attr n)
    else None
  else None.

Definition resource_of (base : URL) (n : Node) : option URL :=
  match node_link base n with
  | Some (false, u) => Some u
  | _ => None
  end.

Definition page_of (base : URL) (n : Node) : option URL :=
  match node_link base n with
  | Some (true, u) => Some u
  | _ => None
  end.

Definition add_link (isPageLink : bool) (u : option URL)
    (acc : list URL * list URL) : list URL * list URL :=
  match u with
  | None => acc
  | Some u => if isPageLink then (acc.1, acc.2 ++ [u])
              else (acc.1 ++ [u], acc.2)
  end.

(** The attribute key the rewriter looks at in a node. *)
Definition rewrite_key (n : Node) : option string :=
  if decide (Type_ n = ElementNode) then
    if decide (Data n = "a" ∨ Data n = "link") then Some "href"
    else if decide (Data n = "script" ∨ Data n = "img") then Some "src"
    else None
  else None.

(** The attribute value resolves against [base] to the URL [abs] on the
    mirror host. *)
Definition same_host_link (base : URL) (a : Attribute) (abs : URL) : Prop :=
  URL_Parse base (Val a) = Some abs ∧ Host abs = host d.

(** The link attribute of an element: the attribute at index [i] is the
    first one under the element's link key that resolves to a URL on the
    mirror host, the URL [abs]. *)
Definition link_attr (base : URL) (n : Node) (i : nat) (a : Attribute)
    (abs : URL) : Prop :=
  ∃ k, rewrite_key n = Some k
       ∧ Attr n !! i = Some a ∧ Key a = k ∧ same_host_link base a abs
       ∧ ∀ j b abs', (j < i)%nat → Attr n !! j = Some b → Key b = k →
                     ¬ same_host_link base b abs'.

End link_vocabulary.

(** ** Runs *)

Definition urlStr (t : Task) : string := URL_String (t_url t).

(** Between [visitedMu.Lock()] and [visitedMu.Unlock()]. *)
Definition in_critical (pc : PC) : bool :=
  match pc with
  | PCheck | PUnlockReturn | PInsert | PUnlock => true
  | _ => false
  end.

(** Between the send on [d.sem] and the deferred receive: a fetch in flight. *)
Definition holds_slot (pc : PC) : bool :=
  match pc with
  | PGet | PHandle _ | PRelease _ => true
  | _ => false
  end.

Definition fetch_outcome (o : Outcome) : bool :=
  match o with
  | Errored | Done => true
  | Skipped | Duplicate => false
  end.

(** The goroutine has recorded its URL in [visited]. *)
Definition won (pc : PC) : bool :=
  match pc with
  | PUnlock | PAcquire | PGet | PHandle _ => true
  | PRelease o | PDone o => fetch_outcome o
  | _ => false
  end.

(** The goroutine has called [client.Get]. *)
Definition has_fetched (pc : PC) : bool :=
  match pc with
  | PHandle _ => true
  | PRelease o | PDone o => fetch_outcome o
  | _ => false
  end.

(** The goroutine found its URL in [visited]. *)
Definition lost (pc : PC) : bool :=
  match pc with
  | PUnlockReturn | PDone Duplicate => true
  | _ => false
  end.

(** The goroutine is past the depth check of line 100. *)
Definition passed_depth (pc : PC) : bool :=
  match pc with
  | PStart | PDone Skipped => false
  | _ => true
  end.

Definition returned (pc : PC) : bool :=
  match pc with
  | PDone _ => true
  | _ => false
  end.

(** The number of fetches in flight. *)
Definition in_flight (s : State) : nat :=
  sum_list_with (λ t, if holds_slot (t_pc t) then 1%nat else 0%nat) (tasks s).

Definition set_task_pc (pc : PC) (t : Task) : Task :=
  mkTask (t_url t) (t_depth t) pc.

(** The normal form of a URL in the specification: its fragment stripped,
    as [collectLinks] does to every link it keeps (line 266). *)
Definition normalized (u : URL) : URL := set_Fragment "" u.

(** The calls of [client.Get] so far, each as the normalized URL of the
    task whose goroutine made it. *)
Definition fetched_normalized (s : State) : list string :=
  omap (λ f, (λ t, URL_String (normalized (t_url t))) <$> tasks s !! f_task f)
       (fetched s).

Section run_vocabulary.

Variable URL_Parse : URL → string → option URL.
Variable d : downloader.
Variable client_Get : nat → string → GetResult.
Variable html_Parse : string → option Node.
Variable MkdirAll_ok Create_ok : string → bool.

(** The shared fields other than the goroutines are unchanged. *)
Definition same_shared (s s' : State) : Prop :=
  visited s' = visited s ∧ visitedMu s' = visitedMu s ∧ sem s' = sem s
  ∧ fetched s' = fetched s.

(** The atomic actions of goroutine [i], running task [t]: the program
    counter it reaches and what it does to the shared fields. *)
Definition move (i : nat) (t : Task) (s : State) (pc' : PC) (s' : State)
  : Prop :=
  match t_pc t, pc' with
  | PStart, PDone Skipped => t_depth t > maxDepth d ∧ same_shared s s'
  | PStart, PLock => t_depth t ≤ maxDepth d ∧ same_shared s s'
  | PLock, PCheck =>
      visitedMu s = None ∧ visitedMu s' = Some i
      ∧ visited s' = visited s ∧ sem s' = sem s ∧ fetched s' = fetched s
  | PCheck, PUnlockReturn =>
      default false (visited s !! urlStr t) = true ∧ same_shared s s'
  | PCheck, PInsert =>
      default false (visited s !! urlStr t) = false ∧ same_shared s s'
  | PUnlockReturn, PDone Duplicate
  | PUnlock, PAcquire =>
      visitedMu s' = None
      ∧ visited s' = visited s ∧ sem s' = sem s ∧ fetched s' = fetched s
  | PInsert, PUnlock =>
      visited s' = <[urlStr t := true]> (visited s)
      ∧ visitedMu s' = visitedMu s ∧ sem s' = sem s ∧ fetched s' = fetched s
  | PAcquire, PGet =>
      Z.of_nat (sem s) < concurrencyLimit d ∧ sem s' = S (sem s)
      ∧ visited s' = visited s ∧ visitedMu s' = visitedMu s
      ∧ fetched s' = fetched s
  | PGet, PHandle _ =>
      fetched s' = fetched s ++ [mkFetch i (urlStr t) (t_depth t)]
      ∧ visited s' = visited s ∧ visitedMu s' = visitedMu s ∧ sem s' = sem s
  | PHandle _, PRelease o => fetch_outcome o = true ∧ same_shared s s'
  | PRelease o, PDone o' =>
      o' = o ∧ sem s = S (sem s')
      ∧ visited s' = visited s ∧ visitedMu s' = visitedMu s
      ∧ fetched s' = fetched s
  | _, _ => False
  end.

(** The goroutines after an action of goroutine [i] that spawned [news]. *)
Definition upd (i : nat) (pc' : PC) (news : list Task) (ts : list Task)
  : list Task :=
  alter (set_task_pc pc') i ts ++ news.

Definition spawned_by (t : Task) (n : Task) : Prop :=
  t_pc n = PStart
  ∧ (t_depth n = t_depth t ∨ t_depth n = int_add (t_depth t) 1)
  ∧ kept_link d (t_url n).

(** What holds in every state of a run. *)
Record Inv (s : State) : Prop := mkInv {
  inv_mutex : ∀ i t, tasks s !! i = Some t → in_critical (t_pc t) = true →
              visitedMu s = Some i;
  inv_true : ∀ x v, visited s !! x = Some v → v = true;
  inv_insert : ∀ i t, tasks s !! i = Some t → t_pc t = PInsert →
               visited s !! urlStr t = None;
  inv_won : ∀ i t, tasks s !! i = Some t → won (t_pc t) = true →
            visited s !! urlStr t = Some true;
  inv_lost : ∀ i t, tasks s !! i = Some t → lost (t_pc t) = true →
             visited s !! urlStr t = Some true;
  inv_unique : ∀ i j ti tj,
               tasks s !! i = Some ti → tasks s !! j = Some tj →
               won (t_pc ti) = true → won (t_pc tj) = true →
               urlStr ti = urlStr tj → i = j;
  inv_claimed : ∀ x, is_Some (visited s !! x) →
                ∃ i t, tasks s !! i = Some t ∧ won (t_pc t) = true
                       ∧ urlStr t = x;
  inv_fetched : ∀ f, f ∈ fetched s →
                ∃ t, tasks s !! f_task f = Some t
                     ∧ has_fetched (t_pc t) = true
                     ∧ f_url f = urlStr t ∧ f_depth f = t_depth t;
  inv_fetched_nodup : NoDup (f_task <$> fetched s);
  inv_fetched_all : ∀ i t, tasks s !! i = Some t →
                    has_fetched (t_pc t) = true →
                    ∃ f, f ∈ fetched s ∧ f_task f = i;
  inv_sem : sem s = in_flight s;
  inv_sem_bound : sem s = 0%nat ∨ Z.of_nat (sem s) ≤ concurrencyLimit d;
  inv_depth : ∀ i t, tasks s !! i = Some t → passed_depth (t_pc t) = true →
              t_depth t ≤ maxDepth d;
  inv_release : ∀ i t o, tasks s !! i = Some t → t_pc t = PRelease o →
                fetch_outcome o = true;
  inv_skipped : ∀ i t, tasks s !! i = Some t → t_pc t = PDone Skipped →
                t_depth t > maxDepth d
}.

(** Every task but the first comes from a link the classifier kept. *)
Definition link_tasks (base : URL) (s : State) : Prop :=
  ∀ i t, tasks s !! i = Some t →
         (i = 0%nat ∧ t_url t = base) ∨ kept_link d (t_url t).

(** No task is ever spawned beyond the depth bound (C3 as stated). *)
Definition never_spawned_beyond (s0 : State) : Prop :=
  ∀ s, rtc (step URL_Parse d client_Get html_Parse MkdirAll_ok Create_ok) s0 s →
       ∀ t, t ∈ tasks s → t_depth t ≤ maxDepth d.

(** No normalized URL is ever requested twice (C2 as stated). *)
Definition once_per_normalized_url (s0 : State) : Prop :=
  ∀ s, rtc (step URL_Parse d client_Get html_Parse MkdirAll_ok Create_ok) s0 s →
       NoDup (fetched_normalized s).

End run_vocabulary.

(** ** Further vocabulary: paths *)

(** [u.Path = p] *)
Definition set_Path (p : string) (u : URL) : URL :=
  mkURL (Scheme u) (Host u) p (RawQuery u) (Fragment u).

(** ** Further vocabulary: documents and links *)

(** A loop that calls [fn] on the nodes of a list, one after the other:
    the attribute lists it leaves in them and the final state. *)
Fixpoint visit_each {S : Type} (fn : Node → S → list Attribute * S)
    (nodes : list Node) (s : S) : list (list Attribute) * S :=
  match nodes with
  | [] => ([], s)
  | n :: rest =>
      let '(attr', s1) := fn n s in
      let '(attrs, s2) := visit_each fn rest s1 in
      (attr' :: attrs, s2)
  end.

(** The scheme of a resolved link as [collectLinks] completes it (lines
    259-261). *)
Definition inherit_scheme (base absURL : URL) : URL :=
  if decide (Scheme absURL = "") then set_Scheme (Scheme base) absURL
  else absURL.

(** The link [collectLinks] returns for the resolved URL [absURL]. *)
Definition collected (base absURL : URL) : URL :=
  set_Fragment "" (inherit_scheme base absURL).

(** ** Further vocabulary: runs *)

(** The goroutines that have not returned. *)
Definition running (s : State) : nat :=
  sum_list_with (λ t, if returned (t_pc t) then 0%nat else 1%nat) (tasks s).

(** The tasks that the calls [d.download(u, depth)] of a loop over [us]
    start. *)
Definition started (us : list URL) (depth : Z) : list Task :=
  (λ u, mkTask u depth PStart) <$> us.

Section books.

Variable URL_Parse : URL → string → option URL.
Variable d : downloader.
Variable client_Get : nat → string → GetResult.
Variable html_Parse : string → option Node.
Variable MkdirAll_ok Create_ok : string → bool.

(** What lines 128-176 write for the response [rsp] to the request of
    [u]: the file [path] with the content [c]. *)
Definition stored (u : URL) (rsp : Response) (path : string)
    (c : FileContent) : Prop :=
  StatusCode rsp = 200
  ∧ path = makeLocalPath d u
  ∧ MkdirAll_ok (filepath.Dir path) = true
  ∧ Create_ok path = true
  ∧ if strings.Contains (ContentType rsp) "text/html"
    then ∃ doc, html_Parse (Body rsp) = Some doc
                ∧ c = Rendered (rewriteLinks URL_Parse d doc u path)
    else c = RawBody (Body rsp).

(** The file comes from a call of [client.Get] that the run has made: the
    [k]th, by the goroutine of a task for the URL [u], answered without
    error. *)
Definition saved_from (s : State) (path : string) (c : FileContent)
  : Prop :=
  ∃ k f t rsp,
    fetched s !! k = Some f ∧ tasks s !! f_task f = Some t
    ∧ f_url f = urlStr t
    ∧ client_Get k (f_url f) = mkGetResult (Some rsp) None
    ∧ stored (t_url t) rsp path c.

(** The books of a run: the mutex, the wait group, the results of the
    calls and the files agree with the goroutines. *)
Record Books (s : State) : Prop := mkBooks {
  books_holder : ∀ i, visitedMu s = Some i →
                 ∃ t, tasks s !! i = Some t ∧ in_critical (t_pc t) = true;
  books_wg : wg s = Z.of_nat (running s);
  books_handle : ∀ i t r, tasks s !! i = Some t → t_pc t = PHandle r →
                 ∃ k, fetched s !! k
                      = Some (mkFetch i (urlStr t) (t_depth t))
                      ∧ r = client_Get k (urlStr t);
  books_saved : ∀ path c, (path, c) ∈ saved s → saved_from s path c
}.

End books.

(** * A small site, to run the program on *)
Module Fixture.

Definition home : URL := mkURL "https" "example.com" "/" "" "".

(** The part of a reference before its first [#], and the part after. *)
Fixpoint cut_fragment (ref : string) : string * string :=
  match ref with
  | EmptyString => ("", "")
  | String c r =>
      if Ascii.eqb c "#" then ("", r)
      else let '(p, f) := cut_fragment r in (String c p, f)
  end.

(** Resolution of the references this site uses: empty, fragment-only,
    absolute paths with or without a fragment, and one URL of another
    host; anything else does not parse. *)
Definition Parse (base : URL) (ref : string) : option URL :=
  match ref with
  | EmptyString => Some base
  | String "#" f => Some (set_Fragment f base)
  | String "/" _ =>
      let '(p, f) := cut_fragment ref in
      Some (mkURL (Scheme base) (Host base) p "" f)
  | _ =>
      if decide (ref = "https://other.org/x")
      then Some (mkURL "https" "other.org" "/x" "" "")
      else None
  end.

Definition url_Parse (s : string) : option URL :=
  if decide (s = "https://example.com/") then Some home else None.

Definition elem (tag : string) (attrs : list Attribute) (cs : list Node)
  : Node := mkNode ElementNode tag attrs cs.

Definition attr (k v : string) : Attribute := mkAttr "" k v.

Definition home_doc : Node :=
  mkNode DocumentNode "" []
    [elem "html" []
       [elem "head" [] [elem "link" [attr "rel" "stylesheet";
                                     attr "href" "/style.css"] []];
        elem "body" []
          [elem "a" [attr "href" "/about"] [mkNode TextNode "About" [] []];
           elem "img" [attr "src" "/logo.png"; attr "alt" "logo"] [];
           elem "a" [attr "href" "#top"] [];
           elem "a" [attr "href" "https://other.org/x"] [];
           elem "a" [attr "href" "/"] []]]].

Definition about_doc : Node :=
  mkNode DocumentNode "" []
    [elem "html" []
       [elem "body" []
          [elem "a" [attr "href" "/"] [];
           elem "a" [attr "href" "/about#team"] []]]].

Definition ok_html (body : string) : GetResult :=
  mkGetResult (Some (mkResponse "200 OK" 200 "text/html; charset=utf-8" body))
              None.

Definition ok_file (ctype body : string) : GetResult :=
  mkGetResult (Some (mkResponse "200 OK" 200 ctype body)) None.

(** The connection fails for every URL the site does not serve. *)
Definition Get (n : nat) (url : string) : GetResult :=
  if decide (url = "https://example.com/") then ok_html "home"
  else if decide (url = "https://example.com/about") then ok_html "about"
  else if decide (url = "https://example.com/logo.png")
  then ok_file "image/png" "PNG"
  else if decide (url = "https://example.com/style.css")
  then ok_file "text/css" "body{}"
  else mkGetResult None (Some "dial tcp: lookup failed").

Definition html_Parse (body : string) : option Node :=
  if decide (body = "home") then Some home_doc
  else if decide (body = "about") then Some about_doc
  else None.

Definition always (path : string) : bool := true.

Definition run_site (d : downloader) (sched : list nat) (s : State)
  : option State :=
  run Parse d Get html_Parse always always sched s.

(** Goroutine [i] acts [n] times in a row. *)
Definition burst (n i : nat) : list nat := replicate n i.

End Fixture.

Definition site : downloader := mkDownloader 1 5 "example.com" "example.com".

(** The same site, mirrored without following page links. *)
Definition site0 : downloader := mkDownloader 0 5 "example.com" "example.com".

Definition at_path (p : string) : URL := mkURL "https" "example.com" p "" "".

(** After [d.download(base, 0)] in [main]. *)
Definition start : State := go_download Fixture.home 0 empty_state.

(** Every goroutine in turn, from its start to its return. *)
Definition in_turn : list nat :=
  Fixture.burst 9 0 ++ Fixture.burst 9 1 ++ Fixture.burst 9 2
  ++ Fixture.burst 9 3 ++ Fixture.burst 4 4 ++ Fixture.burst 4 5
  ++ [6; 7]%nat.

Definition finished : State :=
  default empty_state (Fixture.run_site site in_turn start).

(** The first goroutine up to its deferred calls, at depth limit 0. *)
Definition expanded : State :=
  default empty_state (Fixture.run_site site0 (Fixture.burst 8 0) start).

(** A start URL the site does not serve, and its goroutine about to call
    [client.Get]. *)
Definition start_missing : State :=
  go_download (at_path "/missing") 0 empty_state.

Definition calling : State :=
  default empty_state (Fixture.run_site site (Fixture.burst 6 0) start_missing).

(** ** Further runs of the small site *)

(** The first goroutine with the response for the home page at hand. *)
Definition handling : State :=
  default empty_state (Fixture.run_site site (Fixture.burst 7 0) start).

(** The site behind a channel without capacity ([-n 0]), and its first
    goroutine at the send on the channel. *)
Definition site_closed : downloader :=
  mkDownloader 1 0 "example.com" "example.com".

Definition waiting : State :=
  default empty_state (Fixture.run_site site_closed (Fixture.burst 5 0) start).

(** The site with a negative depth limit ([-d -1]), and its first
    goroutine after its only action. *)
Definition site_off : downloader :=
  mkDownloader (-1) 5 "example.com" "example.com".

Definition turned_away : State :=
  default empty_state (Fixture.run_site site_off [0%nat] start).

(** The site entered at an anchor of its home page. The client sends no
    fragment to the server, so that the request for
    [https://example.com/#top] is answered with the home page. *)
Definition Get_anchor (n : nat) (url : string) : GetResult :=
  if decide (url = "https://example.com/#top") then Fixture.ok_html "home"
  else Fixture.Get n url.

Definition start_anchor : State :=
  go_download (set_Fragment "top" Fixture.home) 0 empty_state.

(** The first goroutine from its start to its return, then the goroutine
    of the link [#top] of the home page likewise. *)
Definition revisited : State :=
  default empty_state
    (run Fixture.Parse site Get_anchor Fixture.html_Parse Fixture.always
         Fixture.always (Fixture.burst 9 0 ++ Fixture.burst 9 4)
         start_anchor).

(** * Theory *)

(** ** The library functions on examples from their documentation *)

Example Clean_examples :
  filepath.Clean "/a//b/./c/.." = "/a/b"
  ∧ filepath.Clean "../../a/../../b" = "../../../b"
  ∧ filepath.Clean "/../a" = "/a"
  ∧ filepath.Clean "a/.." = "."
  ∧ filepath.Clean "" = "."
  ∧ filepath.Clean "/" = "/".
Proof. by repeat split. Qed.

Example Join_examples :
  filepath.Join ["example.com"; "/"] = "example.com"
  ∧ filepath.Join [""; "a"; ""; "b"] = "a/b"
  ∧ filepath.Join ["a"; "../b"] = "b"
  ∧ filepath.Join [""; ""] = "".
Proof. by repeat split. Qed.

Example Ext_examples :
  filepath.Ext "a.b/c" = ""
  ∧ filepath.Ext "a/b.tar.gz" = ".gz"
  ∧ filepath.Ext "example.com" = ".com"
  ∧ filepath.Ext "a/.." = ".".
Proof. by repeat split. Qed.

Example Dir_examples :
  filepath.Dir "a/b/c.png" = "a/b"
  ∧ filepath.Dir "c.png" = "."
  ∧ filepath.Dir "/c.png" = "/"
  ∧ filepath.Dir "a/b/" = "a/b".
Proof. by repeat split. Qed.

Example Rel_examples :
  filepath.Rel "a/b/c" "a/c/d" = Some "../../c/d"
  ∧ filepath.Rel "a/b" "a/b/c/d" = Some "c/d"
  ∧ filepath.Rel "/a/b/c/d" "/a/b" = Some "../.."
  ∧ filepath.Rel "a/b" "a/b/." = Some "."
  ∧ filepath.Rel "." "a/b" = Some "a/b"
  ∧ filepath.Rel "/" "/a" = Some "a"
  ∧ filepath.Rel ".." "a" = None
  ∧ filepath.Rel "a" "/a" = None.
Proof. by repeat split. Qed.

Example makeLocalPath_examples :
  makeLocalPath site (at_path "") = "example.com/index.html"
  ∧ makeLocalPath site (at_path "/") = "example.com/index.html"
  ∧ makeLocalPath site (at_path "/about") = "example.com/about/index.html"
  ∧ makeLocalPath site (at_path "/logo.png") = "example.com/logo.png"
  ∧ makeLocalPath site (at_path "/a.b/") = "example.com/a.b/index.html".
Proof. by repeat split. Qed.

(** ** Facts about [strings.Split] and [strings.Join] *)

Lemma Split_nonempty s sep : strings.Split s sep ≠ [].
Proof.
  destruct s as [|c r]; [done|]. simpl.
  destruct (Ascii.eqb c sep); [done|]. by destruct (strings.Split r sep).
Qed.

Lemma Split_app a b sep :
  strings.Split (a +:+ String sep b) sep
  = strings.Split a sep ++ strings.Split b sep.
Proof.
  induction a as [|c r IH]; simpl.
  - by rewrite Ascii.eqb_refl.
  - destruct (Ascii.eqb c sep); [by rewrite IH|].
    rewrite IH. destruct (strings.Split r sep) eqn:E; [|done].
    by apply Split_nonempty in E.
Qed.

Lemma Split_sepfree e :
  filepath.has_sep e = false → strings.Split e filepath.Separator = [e].
Proof.
  induction e as [|c r IH]; [done|]. simpl.
  intros [Hc Hr]%orb_false_iff. unfold filepath.IsPathSeparator in Hc.
  by rewrite Hc, IH.
Qed.

Lemma Split_elems_sepfree s :
  Forall (λ e, filepath.has_sep e = false) (strings.Split s filepath.Separator).
Proof.
  induction s as [|c r IH]; simpl; [by repeat constructor|].
  destruct (Ascii.eqb c filepath.Separator) eqn:Hc; [by constructor|].
  destruct IH as [|e es He Hes].
  - repeat constructor. simpl. unfold filepath.IsPathSeparator. by rewrite Hc.
  - constructor; [|done]. simpl. unfold filepath.IsPathSeparator.
    by rewrite Hc.
Qed.

Lemma Join_Split s sep : strings.Join (strings.Split s sep) sep = s.
Proof.
  induction s as [|c r IH]; [done|]. simpl.
  destruct (Ascii.eqb c sep) eqn:Hc.
  - apply Ascii.eqb_eq in Hc as ->.
    destruct (strings.Split r sep) eqn:E; [by apply Split_nonempty in E|].
    simpl in *. by rewrite IH.
  - destruct (strings.Split r sep) as [|e [|e' es]] eqn:E.
    + by apply Split_nonempty in E.
    + simpl in *. by rewrite IH.
    + simpl in *. by rewrite <- IH.
Qed.

Lemma Join_cons e es sep :
  es ≠ [] → strings.Join (e :: es) sep = e +:+ String sep (strings.Join es sep).
Proof. by destruct es. Qed.

Lemma Split_Join L :
  L ≠ [] → Forall (λ e, filepath.has_sep e = false) L →
  strings.Split (strings.Join L filepath.Separator) filepath.Separator = L.
Proof.
  induction L as [|e es IH]; [done|]. intros _ Hall.
  apply Forall_cons in Hall as [He Hes].
  destruct es as [|e' es']; [by apply Split_sepfree|].
  rewrite Join_cons by done. rewrite Split_app, Split_sepfree by done.
  by rewrite IH.
Qed.

(** ** Facts about [filepath.Clean] *)

Lemma stk_ups out : Forall (eq "..") out → stk false out.
Proof.
  induction 1 as [|x out <- Hall IH]; simpl; [done|]. right. done.
Qed.

Lemma stk_tail r x out : stk r (x :: out) → stk r out.
Proof.
  simpl. intros [[_ H]|(_ & -> & H)]; [done|]. by apply stk_ups.
Qed.

Lemma stk_app_r r X out : stk r (X ++ out) → stk r out.
Proof. induction X as [|x X IH]; [done|]. intros H%stk_tail. auto. Qed.

Lemma stk_real r out : Forall real out → stk r out.
Proof. induction 1; simpl; auto. Qed.

Lemma stk_rooted_real out : stk true out → Forall real out.
Proof.
  induction out as [|x out IH]; [constructor|].
  simpl. intros [[Hx H]|(_ & [=] & _)]. constructor; auto.
Qed.

Lemma stk_elems r out :
  stk r out → Forall (λ e, e ≠ "" ∧ e ≠ "." ∧ filepath.has_sep e = false) out.
Proof.
  induction out as [|x out IH]; [constructor|].
  intros H. constructor; [|by eapply IH, stk_tail].
  destruct H as [[(? & ? & ? & ?) _]|(-> & _)]; done.
Qed.

Lemma clean_step_real r out e : real e → filepath.clean_step r out e = e :: out.
Proof.
  intros (? & ? & ? & _). unfold filepath.clean_step.
  by repeat (case_decide; [done|]).
Qed.

Lemma clean_step_push r x out :
  stk r (x :: out) → filepath.clean_step r out x = x :: out.
Proof.
  simpl. intros [[Hx _]|(-> & -> & Hall)]; [by apply clean_step_real|].
  unfold filepath.clean_step. simpl.
  destruct Hall as [|y out <- _]; [done|]. done.
Qed.

Lemma clean_step_stk r out e :
  filepath.has_sep e = false → stk r out → stk r (filepath.clean_step r out e).
Proof.
  intros He Hout. unfold filepath.clean_step.
  repeat case_decide; subst; try done.
  - destruct out as [|top rest].
    + destruct r; simpl; auto.
    + case_decide as Htop.
      * subst top. destruct r; [done|].
        destruct Hout as [[(_ & _ & ? & _) _]|(_ & _ & Hall)]; [done|].
        simpl. right. repeat split; auto.
      * by eapply stk_tail.
  - simpl. left. done.
Qed.

Lemma fold_clean_stk r X out :
  Forall (λ e, filepath.has_sep e = false) X → stk r out →
  stk r (fold_left (filepath.clean_step r) X out).
Proof.
  intros HX. revert out. induction HX as [|e X He _ IH]; [done|].
  intros out Hout. simpl. by apply IH, clean_step_stk.
Qed.

(** Writing out a well-formed buffer reproduces it. *)
Lemma fold_clean_push r X out :
  stk r (X ++ out) → fold_left (filepath.clean_step r) (rev X) out = X ++ out.
Proof.
  induction X as [|x X IH]; [done|]. intros H.
  simpl. rewrite fold_left_app. simpl.
  rewrite IH by (by eapply stk_tail). by apply clean_step_push.
Qed.

Lemma fold_clean_real r X out :
  Forall real X → fold_left (filepath.clean_step r) X out = rev X ++ out.
Proof.
  intros HX. revert out. induction HX as [|e X He _ IH]; [done|].
  intros out. simpl. rewrite IH, clean_step_real by done.
  by rewrite <- app_assoc.
Qed.

(** As many [..] as there are real elements on top remove them. *)
Lemma fold_clean_pops r B out :
  Forall real B →
  fold_left (filepath.clean_step r) (replicate (length B) "..") (B ++ out) = out.
Proof.
  induction 1 as [|b B (_ & _ & Hb & _) _ IH]; [done|].
  simpl. unfold filepath.clean_step at 2. simpl.
  case_decide; [done|]. done.
Qed.

(** ** Facts about [filepath.render], and [Clean] on its own results *)

Lemma stk_good r L : stk r (rev L) → Forall good L.
Proof. intros H%stk_elems. by apply Forall_rev in H; rewrite rev_involutive in H. Qed.

Lemma good_sepfree L : Forall good L → Forall (λ e, filepath.has_sep e = false) L.
Proof. intros H. eapply Forall_impl; [exact H|]. by intros e (_ & _ & ?). Qed.

Lemma real_good e : real e → good e.
Proof. by intros (? & ? & _ & ?). Qed.

Lemma slashed_good e x : good e → filepath.slashed (e +:+ x) = false.
Proof.
  intros (Hne & _ & Hsep). destruct e as [|c e]; [done|].
  simpl in *. by apply orb_false_iff in Hsep as [-> _].
Qed.

Lemma append_empty_r (s : string) : s +:+ "" = s.
Proof.
  induction s as [|c s IH]; [done|].
  change (String c (s +:+ "") = String c s). by rewrite IH.
Qed.

Lemma Join_good_head e es :
  good e → ∃ x, strings.Join (e :: es) filepath.Separator = e +:+ x.
Proof.
  intros _. destruct es as [|e' es].
  - exists "". simpl. by rewrite append_empty_r.
  - eexists. by rewrite Join_cons.
Qed.

Lemma app_nonempty (e x : string) : e ≠ "" → e +:+ x ≠ "".
Proof. by destruct e. Qed.

Lemma render_rooted L :
  filepath.render true L = String "/" (strings.Join L filepath.Separator).
Proof. done. Qed.

Lemma render_unrooted_cons e es :
  good e →
  filepath.render false (e :: es) = strings.Join (e :: es) filepath.Separator.
Proof.
  intros He. unfold filepath.render.
  destruct (Join_good_head e es He) as [x ->].
  change ("" +:+ ?y) with y. cbv zeta.
  case_decide as H; [|done]. by apply app_nonempty in H; [|apply He].
Qed.

Lemma render_nonempty r L : filepath.render r L ≠ "".
Proof. unfold filepath.render. by case_decide. Qed.

Lemma slashed_render r L : Forall good L → filepath.slashed (filepath.render r L) = r.
Proof.
  intros HL. destruct r; [done|].
  destruct HL as [|e es He _]; [done|].
  rewrite render_unrooted_cons by done.
  destruct (Join_good_head e es He) as [x ->]. by apply slashed_good.
Qed.

Lemma Split_render_rooted L :
  Forall good L →
  strings.Split (filepath.render true L) filepath.Separator
  = "" :: match L with [] => [""] | _ => L end.
Proof.
  intros HL. rewrite render_rooted.
  change (String "/" ?x) with ("" +:+ String filepath.Separator x).
  rewrite Split_app. simpl. f_equal.
  destruct L as [|e es]; [done|]. apply Split_Join; [done|].
  by apply good_sepfree.
Qed.

Lemma Split_render_unrooted L :
  Forall good L →
  strings.Split (filepath.render false L) filepath.Separator
  = match L with [] => ["."] | _ => L end.
Proof.
  intros HL. destruct L as [|e es]; [done|].
  rewrite render_unrooted_cons by (by inversion HL).
  apply Split_Join; [done|]. by apply good_sepfree.
Qed.

(** Cleaning goes through a rendered path element by element. *)
Lemma fold_Split_render r r' L out :
  Forall good L →
  fold_left (filepath.clean_step r)
            (strings.Split (filepath.render r' L) filepath.Separator) out
  = fold_left (filepath.clean_step r) L out.
Proof.
  intros HL. destruct r'.
  - rewrite Split_render_rooted by done. by destruct L.
  - rewrite Split_render_unrooted by done. by destruct L.
Qed.

Lemma last_Split_render r L e :
  Forall good (L ++ [e]) →
  List.last (strings.Split (filepath.render r (L ++ [e])) filepath.Separator) ""
  = e.
Proof.
  intros HL. destruct r.
  - rewrite Split_render_rooted by done.
    destruct (L ++ [e]) as [|x xs] eqn:E; [by destruct L|].
    rewrite <- E. change ("" :: ?l) with ([""] ++ l).
    by rewrite app_assoc, last_last.
  - rewrite Split_render_unrooted by done.
    destruct (L ++ [e]) as [|x xs] eqn:E; [by destruct L|].
    rewrite <- E. by rewrite last_last.
Qed.

(** The shape of every result of [Clean]. *)
Lemma Clean_shape p :
  ∃ L, stk (filepath.slashed p) (rev L)
       ∧ filepath.Clean p = filepath.render (filepath.slashed p) L.
Proof.
  unfold filepath.Clean. case_decide as Hp.
  - subst p. by exists [].
  - eexists. split; [|done]. unfold filepath.clean_elems.
    rewrite rev_involutive. apply fold_clean_stk; [|done].
    apply Split_elems_sepfree.
Qed.

Lemma clean_elems_render r r' L out :
  stk r (rev L ++ out) →
  fold_left (filepath.clean_step r)
            (strings.Split (filepath.render r' L) filepath.Separator) out
  = rev L ++ out.
Proof.
  intros H. rewrite fold_Split_render.
  - rewrite <- (rev_involutive L) at 1. by apply fold_clean_push.
  - apply stk_elems in H. apply Forall_app in H as [H _].
    by apply Forall_rev in H; rewrite rev_involutive in H.
Qed.

(** [Clean] is idempotent. *)
Lemma Clean_render r L :
  stk r (rev L) → filepath.Clean (filepath.render r L) = filepath.render r L.
Proof.
  intros H. pose proof (stk_good _ _ H) as HL.
  unfold filepath.Clean. case_decide as Hne; [by apply render_nonempty in Hne|].
  rewrite slashed_render by done. f_equal.
  unfold filepath.clean_elems. rewrite clean_elems_render.
  - by rewrite app_nil_r, rev_involutive.
  - by rewrite app_nil_r.
Qed.

Lemma Clean_idem p : filepath.Clean (filepath.Clean p) = filepath.Clean p.
Proof. destruct (Clean_shape p) as (L & H & ->). by apply Clean_render. Qed.

(** ** Facts about [filepath.Join] *)

Lemma slashed_app a x : a ≠ "" → filepath.slashed (a +:+ x) = filepath.slashed a.
Proof. by destruct a. Qed.

Lemma Join2_eq a b :
  a ≠ "" → filepath.Join [a; b] = filepath.Clean (a +:+ String filepath.Separator b).
Proof. intros Ha. simpl. by case_decide. Qed.

Lemma Join2_render r A b :
  stk r (rev A) →
  filepath.Join [filepath.render r A; b]
  = filepath.render r
      (rev (fold_left (filepath.clean_step r)
                      (strings.Split b filepath.Separator) (rev A))).
Proof.
  intros HA. pose proof (stk_good _ _ HA) as HgA.
  rewrite Join2_eq by apply render_nonempty.
  unfold filepath.Clean. case_decide as Hne.
  { by apply app_nonempty in Hne; [|apply render_nonempty]. }
  rewrite slashed_app, slashed_render by (done || apply render_nonempty).
  f_equal. unfold filepath.clean_elems.
  rewrite Split_app, fold_left_app. f_equal. f_equal.
  rewrite clean_elems_render; rewrite app_nil_r; done.
Qed.

Lemma Join2_render_real r r' A B :
  stk r (rev A) → Forall real B →
  filepath.Join [filepath.render r A; filepath.render r' B]
  = filepath.render r (A ++ B).
Proof.
  intros HA HB. rewrite Join2_render by done.
  rewrite fold_Split_render, fold_clean_real by
    (done || (eapply Forall_impl; [exact HB|apply real_good])).
  by rewrite rev_app_distr, !rev_involutive.
Qed.

Lemma Join2_render_elem r A e :
  stk r (rev A) → real e →
  filepath.Join [filepath.render r A; e] = filepath.render r (A ++ [e]).
Proof.
  intros HA He. rewrite Join2_render by done.
  rewrite Split_sepfree by apply He. simpl.
  rewrite clean_step_real by done. simpl. by rewrite rev_involutive.
Qed.

(** ** The final element of a path *)

Lemma Ext_last_elem path : filepath.Ext path = filepath.elem_ext (last_elem path).
Proof. done. Qed.

Lemma last_elem_Clean p : real (last_elem p) → last_elem (filepath.Clean p) = last_elem p.
Proof.
  unfold last_elem. intros He.
  set (e := List.last (strings.Split p filepath.Separator) "") in *.
  unfold filepath.Clean. case_decide as Hp.
  { subst p. by destruct He as [? _]. }
  destruct (exists_last (Split_nonempty p filepath.Separator)) as (X & e' & HX).
  assert (e' = e) as -> by (subst e; by rewrite HX, last_last).
  pose proof (Split_elems_sepfree p) as Hsep. rewrite HX in *.
  apply Forall_app in Hsep as [HsX _].
  unfold filepath.clean_elems. rewrite fold_left_app. simpl.
  rewrite clean_step_real by done. simpl.
  apply last_Split_render. apply Forall_app. split.
  - apply Forall_rev. eapply stk_elems, fold_clean_stk; done.
  - repeat constructor; apply He.
Qed.

Lemma last_elem_app a b : last_elem (a +:+ String filepath.Separator b) = last_elem b.
Proof.
  unfold last_elem. rewrite Split_app.
  destruct (exists_last (Split_nonempty b filepath.Separator)) as (X & e & ->).
  by rewrite app_assoc, !last_last.
Qed.

Lemma last_elem_Join2 a b :
  real (last_elem b) → last_elem (filepath.Join [a; b]) = last_elem b.
Proof.
  intros He. destruct (decide (a = "")) as [->|Ha].
  - simpl. case_decide as Hb; [by subst b; destruct He|].
    by apply last_elem_Clean.
  - rewrite Join2_eq by done.
    rewrite last_elem_Clean; rewrite last_elem_app; done.
Qed.

(** ** Facts about [strings.HasSuffix] with a separator *)

Lemma HasSuffix_cons c r :
  r ≠ "" → strings.HasSuffix (String c r) "/" = strings.HasSuffix r "/".
Proof.
  destruct r as [|c' r']; [done|]. intros _.
  unfold strings.HasSuffix. cbn [String.length Nat.leb].
  replace (S (S (String.length r')) - 1)%nat with (S (String.length r')) by lia.
  replace (S (String.length r') - 1)%nat with (String.length r') by lia.
  done.
Qed.

Lemma last_elem_empty_HasSuffix p :
  p ≠ "" → last_elem p = "" → strings.HasSuffix p "/" = true.
Proof.
  unfold last_elem. induction p as [|c r IH]; [done|]. intros _.
  destruct (decide (r = "")) as [->|Hr].
  - simpl. destruct (Ascii.eqb c filepath.Separator) eqn:Hc; [|done].
    by apply Ascii.eqb_eq in Hc as ->.
  - rewrite HasSuffix_cons by done. intros H. apply IH; [done|].
    simpl in H. destruct (Ascii.eqb c filepath.Separator).
    + destruct (strings.Split r filepath.Separator) eqn:E; [|done].
      by apply Split_nonempty in E.
    + destruct (strings.Split r filepath.Separator) as [|e [|e' es]] eqn:E;
        done.
Qed.

(** ** The shape of local paths *)

Lemma root_elems_stk d : stk false (rev (root_elems d)).
Proof.
  unfold root_elems, filepath.clean_elems. rewrite rev_involutive.
  apply fold_clean_stk; [apply Split_elems_sepfree|done].
Qed.

Lemma path_elems_real u : Forall real (path_elems u).
Proof.
  unfold path_elems, filepath.clean_elems.
  apply Forall_rev, stk_rooted_real, fold_clean_stk; [|done].
  apply Split_elems_sepfree.
Qed.

Lemma real_index_html : real "index.html".
Proof. by repeat split. Qed.

Lemma stk_app_real r X out : Forall real X → stk r out → stk r (X ++ out).
Proof. induction 1; simpl; auto. Qed.

Lemma elems_stk d B : Forall real B → stk false (rev (root_elems d ++ B)).
Proof.
  intros HB. rewrite rev_app_distr.
  apply stk_app_real; [by apply Forall_rev|apply root_elems_stk].
Qed.

Lemma joined_shape d u :
  rootDir d ≠ "" → filepath.slashed (rootDir d) = false → url_path_ok u →
  joined d u = filepath.render false (root_elems d ++ path_elems u).
Proof.
  intros Hne Hroot Hu. unfold joined.
  rewrite Join2_eq by done. unfold filepath.Clean at 1.
  case_decide as H0; [by apply app_nonempty in H0|].
  rewrite slashed_app, Hroot by done. f_equal.
  unfold filepath.clean_elems at 1.
  rewrite Split_app, fold_left_app.
  assert (fold_left (filepath.clean_step false)
            (strings.Split (rootDir d) filepath.Separator) []
          = rev (root_elems d)) as ->.
  { unfold root_elems, filepath.clean_elems. by rewrite rev_involutive. }
  assert (fold_left (filepath.clean_step false)
            (strings.Split (filepath.Clean (Path u)) filepath.Separator)
            (rev (root_elems d))
          = rev (path_elems u) ++ rev (root_elems d)) as ->.
  { pose proof (path_elems_real u) as Hreal.
    assert (filepath.Clean (Path u)
            = filepath.render (filepath.slashed (Path u)) (path_elems u)) as ->.
    { destruct Hu as [Hu|Hu].
      - rewrite Hu. unfold path_elems. by rewrite Hu.
      - unfold filepath.Clean. case_decide as Hp; [by rewrite Hp in Hu|].
        by rewrite Hu. }
    rewrite fold_Split_render
      by (eapply Forall_impl; [exact Hreal|apply real_good]).
    by apply fold_clean_real. }
  by rewrite rev_app_distr, !rev_involutive.
Qed.

(** Every local path is the root directory's elements, the URL path's
    elements and, under the index rule, [index.html]. *)
Lemma makeLocalPath_shape d u :
  rootDir d ≠ "" → filepath.slashed (rootDir d) = false → url_path_ok u →
  (makeLocalPath d u = filepath.render false (root_elems d ++ path_elems u)
   ∧ makeLocalPath d u = joined d u)
  ∨ (makeLocalPath d u
     = filepath.render false (root_elems d ++ path_elems u ++ ["index.html"])
     ∧ makeLocalPath d u = filepath.Join [joined d u; "index.html"]).
Proof.
  intros Hne Hroot Hu. pose proof (joined_shape d u Hne Hroot Hu) as HJ.
  unfold makeLocalPath. fold (joined d u).
  destruct (_ || _ || _).
  - right. split; [|done]. rewrite HJ, Join2_render_elem.
    + by rewrite <- app_assoc.
    + apply elems_stk, path_elems_real.
    + apply real_index_html.
  - left. done.
Qed.

Lemma render_inj r L1 L2 :
  Forall good L1 → Forall good L2 →
  filepath.render r L1 = filepath.render r L2 → L1 = L2.
Proof.
  intros H1 H2 Heq.
  apply (f_equal (λ s, strings.Split s filepath.Separator)) in Heq.
  destruct r.
  - rewrite !Split_render_rooted in Heq by done.
    destruct L1, L2; simplify_eq; try done.
    + by inversion H2 as [|?? [? _]].
    + by inversion H1 as [|?? [? _]].
  - rewrite !Split_render_unrooted in Heq by done.
    destruct L1, L2; simplify_eq; try done.
    + by inversion H2 as [|?? (_ & ? & _)].
    + by inversion H1 as [|?? (_ & ? & _)].
Qed.

(** ** Facts about [filepath.Dir] *)

Lemma append_assoc (a b c : string) : (a +:+ b) +:+ c = a +:+ (b +:+ c).
Proof.
  induction a as [|x a IH]; [done|].
  change (String x ((a +:+ b) +:+ c) = String x (a +:+ (b +:+ c))).
  by rewrite IH.
Qed.

Lemma Join_snoc L e sep :
  L ≠ [] → strings.Join (L ++ [e]) sep = strings.Join L sep +:+ String sep e.
Proof.
  induction L as [|x L IH]; [done|]. intros _.
  destruct L as [|y L]; [done|].
  change ((x :: y :: L) ++ [e]) with (x :: ((y :: L) ++ [e])).
  rewrite (Join_cons x ((y :: L) ++ [e])) by done.
  rewrite IH, (Join_cons x (y :: L)) by done.
  by rewrite append_assoc.
Qed.

Lemma has_sep_app a x : filepath.has_sep (a +:+ String filepath.Separator x) = true.
Proof.
  induction a as [|c a IH]; [done|].
  change (filepath.IsPathSeparator c
          || filepath.has_sep (a +:+ String filepath.Separator x) = true).
  rewrite IH. apply orb_true_r.
Qed.

Lemma dir_prefix_sepfree e : filepath.has_sep e = false → filepath.dir_prefix e = "".
Proof. destruct e as [|c e]; [done|]. simpl. by intros ->. Qed.

Lemma dir_prefix_app a e :
  filepath.has_sep e = false →
  filepath.dir_prefix (a +:+ String filepath.Separator e)
  = a +:+ String filepath.Separator "".
Proof.
  intros He. induction a as [|c a IH].
  - change (filepath.dir_prefix (String filepath.Separator e)
            = String filepath.Separator "").
    simpl. by rewrite dir_prefix_sepfree.
  - change (filepath.dir_prefix
              (String c (a +:+ String filepath.Separator e))
            = String c (a +:+ String filepath.Separator "")).
    simpl. by rewrite has_sep_app, orb_true_r, IH.
Qed.

Lemma render_unrooted_Join L :
  Forall good L → L ≠ [] →
  filepath.render false L = strings.Join L filepath.Separator.
Proof.
  intros HL Hne. destruct HL as [|e es He _]; [done|].
  by apply render_unrooted_cons.
Qed.

Lemma Dir_render_snoc L e :
  stk false (rev (L ++ [e])) →
  filepath.Dir (filepath.render false (L ++ [e])) = filepath.render false L.
Proof.
  intros H. pose proof (stk_good _ _ H) as Hg.
  apply Forall_app in Hg as [HgL Hge]. apply Forall_inv in Hge.
  rewrite rev_app_distr in H. apply stk_tail in H.
  unfold filepath.Dir.
  rewrite render_unrooted_Join; cycle 1.
  { apply Forall_app. split; [done|by constructor]. }
  { by destruct L. }
  destruct L as [|x L].
  - simpl. rewrite dir_prefix_sepfree by apply Hge. done.
  - rewrite Join_snoc, dir_prefix_app by (done || apply Hge).
    rewrite <- render_unrooted_Join by done.
    rewrite <- Join2_eq by apply render_nonempty.
    rewrite Join2_render by done.
    change (strings.Split "" filepath.Separator) with [""].
    cbn [fold_left]. unfold filepath.clean_step.
    rewrite decide_True by done. by rewrite rev_involutive.
Qed.

Lemma Dir_render L :
  stk false (rev L) →
  filepath.Dir (filepath.render false L) = filepath.render false (removelast L).
Proof.
  destruct (decide (L = [])) as [->|Hne]; [done|].
  destruct (exists_last Hne) as (X & e & ->).
  rewrite removelast_last. apply Dir_render_snoc.
Qed.

(** ** Facts about [filepath.Rel] *)

Lemma rel_common_app A X Y :
  filepath.rel_common (A ++ X) (A ++ Y) = filepath.rel_common X Y.
Proof. induction A as [|a A IH]; [done|]. simpl. by case_decide. Qed.

Lemma rel_common_spec b t b' t' broke :
  filepath.rel_common b t = (b', t', broke) →
  ∃ P, b = P ++ b' ∧ t = P ++ t'.
Proof.
  revert t. induction b as [|x b IH]; intros t Hrc.
  - exists []. simpl in Hrc. by simplify_eq.
  - destruct t as [|y t]; [exists []; simpl in Hrc; by simplify_eq|].
    simpl in Hrc. case_decide as Hxy.
    + subst y. destruct (IH _ Hrc) as (P & -> & ->). by exists (x :: P).
    + exists []. by simplify_eq.
Qed.

Lemma rel_elems_render L :
  Forall good L → L ≠ [] → filepath.rel_elems (filepath.render false L) = L.
Proof.
  intros HL Hne. unfold filepath.rel_elems.
  case_decide as H0; [by apply render_nonempty in H0|].
  rewrite Split_render_unrooted by done.
  destruct (exists_last Hne) as (X & e & ->).
  assert (match X ++ [e] with [] => ["."] | _ :: _ => X ++ [e] end
          = X ++ [e]) as -> by (by destruct X).
  rewrite last_last. case_decide as He; [|done].
  apply Forall_app in HL as [_ HL]. apply Forall_inv in HL.
  by destruct HL.
Qed.

Lemma render_unrooted_dot L : Forall good L → filepath.render false L = "." → L = [].
Proof.
  intros HL Heq. apply (render_inj false L []); done.
Qed.

(** [Rel] succeeds between two cleaned relative paths whose elements differ
    from some point on only by real elements on the base side, and joining
    the base with the result gives the target back. *)
Lemma Rel_render Pfx Bd Bt :
  stk false (rev (Pfx ++ Bd)) → stk false (rev (Pfx ++ Bt)) → Forall real Bd →
  ∃ rel,
    filepath.Rel (filepath.render false (Pfx ++ Bd))
                 (filepath.render false (Pfx ++ Bt)) = Some rel
    ∧ filepath.Join [filepath.render false (Pfx ++ Bd); rel]
      = filepath.render false (Pfx ++ Bt).
Proof.
  intros Hd Ht HBd.
  pose proof (stk_good _ _ Hd) as Hgd. pose proof (stk_good _ _ Ht) as Hgt.
  unfold filepath.Rel. rewrite !Clean_render by done.
  case_decide as Heq.
  { eexists. split; [done|]. rewrite Join2_render by done.
    change (strings.Split "." filepath.Separator) with ["."].
    cbn [fold_left]. unfold filepath.clean_step.
    rewrite decide_False, decide_True by done. by rewrite rev_involutive. }
  (* the elements the loop compares *)
  set (base := if decide (filepath.render false (Pfx ++ Bd) = ".") then ""
               else filepath.render false (Pfx ++ Bd)).
  assert (filepath.rel_elems base = Pfx ++ Bd ∧ filepath.slashed base = false)
    as [Hbase Hsl].
  { subst base. case_decide as Hdot.
    - apply render_unrooted_dot in Hdot; [|done]. by rewrite Hdot.
    - split; [|by apply slashed_render].
      apply rel_elems_render; [done|]. intros Hnil. by rewrite Hnil in Hdot. }
  rewrite Hsl, slashed_render by done. cbn [Bool.eqb negb].
  rewrite Hbase.
  set (Bt' := if decide (Pfx ++ Bt = []) then ["."] else Bt).
  assert (filepath.rel_elems (filepath.render false (Pfx ++ Bt)) = Pfx ++ Bt')
    as ->.
  { subst Bt'. case_decide as Hnil.
    - rewrite Hnil. by apply app_eq_nil in Hnil as [-> _].
    - by apply rel_elems_render. }
  rewrite rel_common_app.
  destruct (filepath.rel_common Bd Bt') as [[b' t'] broke] eqn:Hrc.
  apply rel_common_spec in Hrc as (P & HPd & HPt).
  assert (Forall real b') as Hb'.
  { rewrite HPd in HBd. by apply Forall_app in HBd as [_ ?]. }
  assert (Forall real P) as HP.
  { rewrite HPd in HBd. by apply Forall_app in HBd as [? _]. }
  assert (broke && bool_decide (head b' = Some "..") = false) as ->.
  { destruct Hb' as [|x b' (_ & _ & Hx & _) _]; [by rewrite andb_false_r|].
    simpl. rewrite bool_decide_eq_false_2; [by rewrite andb_false_r|].
    by intros [= ->]. }
  exists (strings.Join (replicate (length b') ".." ++ t') filepath.Separator).
  split; [by destruct b'|].
  rewrite Join2_render by done.
  assert (Forall (λ e, filepath.has_sep e = false) (replicate (length b') ".." ++ t'))
    as Hsep.
  { apply Forall_app. split.
    - apply Forall_forall. by intros x ->%elem_of_replicate_inv.
    - assert (Forall (λ e, filepath.has_sep e = false) Bt') as HBt'.
      { subst Bt'. case_decide; [by repeat constructor|].
        apply good_sepfree. by apply Forall_app in Hgt as [_ ?]. }
      rewrite HPt in HBt'. by apply Forall_app in HBt' as [_ ?]. }
  destruct (decide (replicate (length b') ".." ++ t' = [])) as [Hnil|Hnil].
  { (* nothing to add: the paths were equal *)
    apply app_eq_nil in Hnil as [Hb Hnil]. subst t'.
    destruct b'; [|done]. rewrite app_nil_r in HPd, HPt.
    exfalso. subst Bt'. case_decide as Hn.
    - rewrite <- HPt in HP. apply Forall_inv in HP.
      by destruct HP as (_ & ? & _).
    - apply Heq. by rewrite HPd, HPt. }
  rewrite Split_Join by done. rewrite fold_left_app.
  rewrite HPd at 1. rewrite app_assoc, rev_app_distr.
  rewrite <- (length_rev b') at 1.
  rewrite fold_clean_pops by (by apply Forall_rev).
  subst Bt'. case_decide as HLt.
  - (* the target is [.] *)
    apply app_eq_nil in HLt as [-> ->].
    destruct P as [|x P].
    + simpl in HPt. subst t'. done.
    + apply Forall_inv in HP. simplify_eq/=.
      by destruct HP as (_ & ? & _).
  - subst Bt. rewrite <- (rev_involutive t') at 1.
    rewrite fold_clean_push.
    + by rewrite <- rev_app_distr, rev_involutive, app_assoc.
    + by rewrite <- rev_app_distr, <- app_assoc.
Qed.

Lemma makeLocalPath_elems d u :
  rootDir d ≠ "" → filepath.slashed (rootDir d) = false → url_path_ok u →
  ∃ B, Forall real B
       ∧ makeLocalPath d u = filepath.render false (root_elems d ++ B).
Proof.
  intros Hne Hroot Hu. pose proof (path_elems_real u) as Hreal.
  destruct (makeLocalPath_shape d u Hne Hroot Hu) as [[-> _]|[-> _]].
  - by exists (path_elems u).
  - exists (path_elems u ++ ["index.html"]). split; [|done].
    apply Forall_app. split; [done|]. constructor; [apply real_index_html|done].
Qed.

(** The relative link from a document's directory to a target's local
    path exists, and leads from that directory to the target. *)
Lemma Rel_localPath d base abs :
  rootDir d ≠ "" → filepath.slashed (rootDir d) = false →
  url_path_ok base → url_path_ok abs →
  ∃ relPath,
    filepath.Rel (filepath.Dir (makeLocalPath d base)) (makeLocalPath d abs)
    = Some relPath
    ∧ filepath.Join [filepath.Dir (makeLocalPath d base); relPath]
      = makeLocalPath d abs.
Proof.
  intros Hne Hroot Hbase Habs.
  destruct (makeLocalPath_elems d base Hne Hroot Hbase) as (Bc & HBc & ->).
  destruct (makeLocalPath_elems d abs Hne Hroot Habs) as (Bt & HBt & ->).
  rewrite Dir_render by (by apply elems_stk).
  destruct (decide (Bc = [])) as [->|HneB].
  - (* the document's local path is the root directory itself *)
    rewrite app_nil_r.
    destruct (decide (root_elems d = [])) as [HA|HA].
    + rewrite HA. apply (Rel_render [] [] Bt); try done.
      apply stk_real. by apply Forall_rev.
    + destruct (exists_last HA) as (X & e & HX).
      pose proof (elems_stk d Bt HBt) as Hstk.
      rewrite HX in *. rewrite removelast_last.
      pose proof (Rel_render X [] ([e] ++ Bt)) as HR.
      rewrite app_nil_r, app_assoc in HR. apply HR; [|done|done].
      pose proof (root_elems_stk d) as HsA.
      rewrite HX, rev_app_distr in HsA. by apply stk_tail in HsA.
  - destruct (exists_last HneB) as (X & e & ->).
    rewrite app_assoc, removelast_last.
    apply Forall_app in HBc as [HX _].
    apply Rel_render; [by apply elems_stk|by apply elems_stk|done].
Qed.

(** ** Document trees *)

Lemma Node_ind' (P : Node → Prop) :
  (∀ ty data attr children,
     Forall P children → P (mkNode ty data attr children)) →
  ∀ n, P n.
Proof.
  intros H. fix IH 1. intros [ty data attr children]. apply H.
  induction children as [|c cs IHcs]; constructor; [apply IH|apply IHcs].
Qed.

Lemma traverse_unfold {S : Type} (fn : Node → S → list Attribute * S) n s :
  traverse fn n s
  = let '(attr', s1) := fn n s in
    let '(children', s2) := traverse_siblings fn (Children n) s1 in
    (mkNode (Type_ n) (Data n) attr' children', s2).
Proof. by destruct n. Qed.

(** The state after a traversal: the visitor folded over the nodes in
    document order. *)
Lemma traverse_state {S : Type} (fn : Node → S → list Attribute * S) n s :
  (traverse fn n s).2 = foldl (λ s m, (fn m s).2) s (flatten n).
Proof.
  revert s. induction n as [ty data attr children IH] using Node_ind'.
  intros s. rewrite traverse_unfold. cbn [flatten foldl].
  destruct (fn (mkNode ty data attr children) s) as [attr' s1]. cbn [snd].
  cbn [Children]. clear s. revert s1.
  induction IH as [|c cs Hc _ IHcs]; intros s1; [done|].
  cbn [traverse_siblings flat_map]. rewrite foldl_app, <- Hc.
  destruct (traverse fn c s1) as [c' s']. cbn [snd].
  specialize (IHcs s').
  destruct (traverse_siblings fn cs s') as [cs'' s'']. done.
Qed.

(** With a visitor that keeps no state, the traversal maps every node. *)
Lemma traverse_unit (fn : Node → unit → list Attribute * unit) n :
  (traverse fn n tt).1
  = mkNode (Type_ n) (Data n) (fn n tt).1
      (map (λ c, (traverse fn c tt).1) (Children n)).
Proof.
  rewrite traverse_unfold.
  destruct (fn n tt) as [attr' []]. cbn [fst].
  assert (∀ cs, traverse_siblings fn cs tt
                = (map (λ c, (traverse fn c tt).1) cs, tt)) as ->; [|done].
  induction cs as [|c cs IHcs]; [done|].
  cbn [traverse_siblings map]. destruct (traverse fn c tt) as [c' []].
  by rewrite IHcs.
Qed.

Lemma flatten_traverse_unit (fn : Node → unit → list Attribute * unit) n :
  flatten (traverse fn n tt).1 = map (λ m, (traverse fn m tt).1) (flatten n).
Proof.
  induction n as [ty data attr children IH] using Node_ind'.
  rewrite traverse_unit at 1. cbn [flatten map Children]. f_equal.
  { by rewrite traverse_unit. }
  induction IH as [|c cs Hc _ IHcs]; [done|].
  cbn [map flat_map]. by rewrite map_app, Hc, IHcs.
Qed.

Section links.

Variable URL_Parse : URL → string → option URL.
Variable d : downloader.

(** Inside the section the vocabulary is read at the section's parameters. *)
Local Abbreviation link_of := (link_of URL_Parse d).
Local Abbreviation first_link := (first_link URL_Parse d).
Local Abbreviation node_link := (node_link URL_Parse d).
Local Abbreviation resource_of := (resource_of URL_Parse d).
Local Abbreviation page_of := (page_of URL_Parse d).
Local Abbreviation same_host_link := (same_host_link URL_Parse d).
Local Abbreviation link_attr := (link_attr URL_Parse d).

(** ** The link classifier, element by element *)

Lemma collect_attrs_first base k isPageLink attrs acc :
  collect_attrs URL_Parse d base k isPageLink attrs acc
  = add_link isPageLink (first_link base k attrs) acc.
Proof.
  unfold first_link. induction attrs as [|a rest IH]; [done|].
  cbn [collect_attrs omap list_omap]. case_decide as Hk.
  - rewrite decide_False by done. apply IH.
  - rewrite decide_True by done.
    unfold link_of. destruct (URL_Parse base (Val a)) as [u|]; [|apply IH].
    cbv zeta.
    set (u' := if decide (Scheme u = "") then set_Scheme (Scheme base) u
               else u).
    destruct (decide (Host u' = host d
                      ∧ (Scheme u' = "http" ∨ Scheme u' = "https")))
      as [[Hh Hs]|Hno].
    + rewrite bool_decide_eq_false_2 by (by intros ?).
      rewrite (proj2 (andb_false_iff _ _)); [done|].
      destruct Hs as [Hs|Hs]; [left|right];
        by apply bool_decide_eq_false_2; intros ?.
    + assert (bool_decide (Host u' ≠ host d)
              || bool_decide (Scheme u' ≠ "http")
                 && bool_decide (Scheme u' ≠ "https") = true) as ->;
        [|apply IH].
      destruct (decide (Host u' = host d)) as [Hh|Hh];
        [|by rewrite bool_decide_eq_true_2].
      rewrite bool_decide_eq_false_2 by (by intros ?). simpl.
      apply andb_true_iff; split; apply bool_decide_eq_true_2;
        intros Hs; apply Hno; auto.
Qed.

Lemma collect_visit_link base n acc :
  (collect_visit URL_Parse d base n acc).2
  = add_link (if node_link base n is Some (true, _) then true else false)
             (snd <$> node_link base n) acc.
Proof.
  unfold collect_visit, node_link.
  case_decide as Hty; [by rewrite decide_False|].
  destruct (decide (Type_ n = ElementNode)); [|done].
  repeat case_decide; cbn [snd]; rewrite ?collect_attrs_first; try done.
  all: by destruct (first_link _ _ _).
Qed.

Lemma collect_fold base nodes acc :
  foldl (λ s m, (collect_visit URL_Parse d base m s).2) acc nodes
  = (acc.1 ++ omap (resource_of base) nodes,
     acc.2 ++ omap (page_of base) nodes).
Proof.
  revert acc. induction nodes as [|n nodes IH]; intros [r p].
  - simpl. by rewrite !app_nil_r.
  - cbn [foldl]. rewrite IH, collect_visit_link.
    unfold resource_of, page_of. cbn [omap list_omap].
    destruct (node_link base n) as [[[] u]|]; simpl;
      by rewrite <- ?app_assoc.
Qed.

Lemma first_link_ok base k attrs u :
  first_link base k attrs = Some u → kept_link d u.
Proof.
  unfold first_link, kept_link. intros Hh. apply head_Some_elem_of in Hh.
  apply list_elem_of_omap in Hh as (a & _ & Ha).
  case_decide; [|done]. unfold link_of in Ha.
  destruct (URL_Parse base (Val a)) as [abs|]; [|done].
  cbv zeta in Ha. case_decide as Hok; [|done].
  injection Ha as <-. by destruct Hok.
Qed.

Lemma node_link_ok base n b u :
  node_link base n = Some (b, u) → kept_link d u.
Proof.
  unfold node_link. intros H.
  repeat case_decide; try done;
    apply fmap_Some in H as (u' & Hu' & [= _ ->]);
    by eapply first_link_ok.
Qed.

Lemma collectLinks_eq doc base :
  collectLinks URL_Parse d doc base
  = (omap (resource_of base) (flatten doc), omap (page_of base) (flatten doc)).
Proof. unfold collectLinks. by rewrite traverse_state, collect_fold. Qed.

Lemma collectLinks_kept doc base :
  Forall (kept_link d)
         ((collectLinks URL_Parse d doc base).1
          ++ (collectLinks URL_Parse d doc base).2).
Proof.
  rewrite collectLinks_eq. cbn [fst snd].
  apply Forall_app. split; apply Forall_forall; intros u Hu;
    apply list_elem_of_omap in Hu as (n & _ & Hn).
  - unfold resource_of in Hn.
    destruct (node_link base n) as [[[] u']|] eqn:Hl; [done| |done].
    simplify_eq. by eapply node_link_ok.
  - unfold page_of in Hn.
    destruct (node_link base n) as [[[] u']|] eqn:Hl; [|done|done].
    simplify_eq. by eapply node_link_ok.
Qed.

(** ** The link rewriter, element by element *)

Lemma rewrite_visit_key base cur n :
  (rewrite_visit URL_Parse d base cur n tt).1
  = match rewrite_key n with
    | Some k => rewrite_attrs URL_Parse d base cur k (Attr n)
    | None => Attr n
    end.
Proof.
  unfold rewrite_visit, rewrite_key.
  case_decide as Hty; [by rewrite decide_False|].
  destruct (decide (Type_ n = ElementNode)); [|done].
  by repeat case_decide.
Qed.

Lemma Attr_rewriteLinks base cur n :
  Attr (rewriteLinks URL_Parse d n base cur)
  = match rewrite_key n with
    | Some k => rewrite_attrs URL_Parse d base cur k (Attr n)
    | None => Attr n
    end.
Proof.
  unfold rewriteLinks. rewrite traverse_unit. cbn [Attr].
  apply rewrite_visit_key.
Qed.

Lemma flatten_rewriteLinks base cur doc :
  flatten (rewriteLinks URL_Parse d doc base cur)
  = map (λ n, rewriteLinks URL_Parse d n base cur) (flatten doc).
Proof. apply flatten_traverse_unit. Qed.

(** What the loop can do to an attribute: nothing, or write the relative
    path to the local file of the same-host URL it resolves to. *)
Lemma rewrite_attrs_frame base cur k attrs :
  Forall2 (λ a a',
             a' = a
             ∨ ∃ abs relPath,
                 Key a = k ∧ same_host_link base a abs
                 ∧ filepath.Rel (filepath.Dir cur) (makeLocalPath d abs)
                   = Some relPath
                 ∧ a' = set_Val relPath a)
          attrs (rewrite_attrs URL_Parse d base cur k attrs).
Proof.
  induction attrs as [|a rest IH]; [constructor|].
  cbn [rewrite_attrs]. case_decide as Hk; [constructor; auto|].
  destruct (URL_Parse base (Val a)) as [abs|] eqn:Hp; [|constructor; auto].
  case_decide as Hh; [constructor; auto|].
  destruct (filepath.Rel _ _) as [relPath|] eqn:Hrel; [|constructor; auto].
  constructor.
  - right. exists abs, relPath. by repeat split.
  - apply Forall_Forall2_diag, Forall_forall. auto.
Qed.

(** The first same-host link under the key is the one rewritten. *)
Lemma rewrite_attrs_first base cur k attrs i a abs relPath :
  attrs !! i = Some a → Key a = k → same_host_link base a abs →
  filepath.Rel (filepath.Dir cur) (makeLocalPath d abs) = Some relPath →
  (∀ j b abs', (j < i)%nat → attrs !! j = Some b → Key b = k →
               ¬ same_host_link base b abs') →
  rewrite_attrs URL_Parse d base cur k attrs = <[i := set_Val relPath a]> attrs.
Proof.
  intros Hi Hk [Hp Hh] Hrel. revert i Hi.
  induction attrs as [|b rest IH]; intros i Hi Hfirst; [done|].
  destruct i as [|i].
  - simpl in Hi. simplify_eq. cbn [rewrite_attrs].
    rewrite decide_False by (by intros ?). rewrite Hp.
    rewrite decide_False by (by intros ?). by rewrite Hrel.
  - simpl in Hi. cbn [rewrite_attrs].
    assert (rewrite_attrs URL_Parse d base cur k rest
            = <[i := set_Val relPath a]> rest) as IH'.
    { apply IH; [done|]. intros j c abs' Hj. apply (Hfirst (S j)). lia. }
    case_decide as Hkb; [by rewrite IH'|].
    destruct (URL_Parse base (Val b)) as [abs'|] eqn:Hpb; [|by rewrite IH'].
    case_decide as Hhb; [by rewrite IH'|].
    exfalso. apply (Hfirst 0%nat b abs'); [lia|done| |done].
    by destruct (decide (Key b = k)).
Qed.

End links.

(** ** The run: what every reachable state satisfies *)

Lemma spawn_all_eq us depth s :
  spawn_all us depth s
  = mkState (visited s) (visitedMu s) (sem s) (wg s + Z.of_nat (length us))
      (tasks s ++ map (λ u, mkTask u depth PStart) us)
      (fetched s) (saved s) (panicked s).
Proof.
  unfold spawn_all. revert s. induction us as [|u us IH]; intros s.
  - destruct s. simpl. by rewrite Z.add_0_r, app_nil_r.
  - cbn [foldl]. rewrite IH. unfold go_download. cbn.
    f_equal; [lia|]. by rewrite <- app_assoc.
Qed.

Lemma lookup_upd (ts news : list Task) pc' i t j tj :
  ts !! i = Some t →
  (alter (set_task_pc pc') i ts ++ news) !! j = Some tj →
  (j = i ∧ tj = set_task_pc pc' t)
  ∨ (j ≠ i ∧ ts !! j = Some tj)
  ∨ (j ≠ i ∧ ts !! j = None ∧ tj ∈ news).
Proof.
  intros Hi H. pose proof (lookup_lt_Some _ _ _ Hi) as Hlt.
  apply lookup_app_Some in H as [H|[Hlen H]].
  - destruct (decide (j = i)) as [->|Hne].
    + left. split; [done|]. rewrite list_lookup_alter in H.
      rewrite decide_True, Hi in H by done. by simplify_eq/=.
    + right. left. by rewrite list_lookup_alter_ne in H.
  - rewrite length_alter in Hlen. right. right.
    repeat split; [lia|by apply lookup_ge_None_2|].
    by eapply list_elem_of_lookup_2.
Qed.

Lemma upd_lookup_same (ts news : list Task) pc' i t :
  ts !! i = Some t →
  (alter (set_task_pc pc') i ts ++ news) !! i = Some (set_task_pc pc' t).
Proof.
  intros Hi. rewrite lookup_app_l
    by (rewrite length_alter; by eapply lookup_lt_Some).
  rewrite list_lookup_alter, decide_True, Hi by done. done.
Qed.

Lemma upd_lookup_other (ts news : list Task) pc' i j tj :
  j ≠ i → ts !! j = Some tj →
  (alter (set_task_pc pc') i ts ++ news) !! j = Some tj.
Proof.
  intros Hne Hj. rewrite lookup_app_l
    by (rewrite length_alter; by eapply lookup_lt_Some).
  by rewrite list_lookup_alter_ne.
Qed.

Lemma in_flight_upd (ts news : list Task) pc' i t :
  ts !! i = Some t → Forall (λ n, t_pc n = PStart) news →
  (sum_list_with (λ t, if holds_slot (t_pc t) then 1 else 0)
                 (alter (set_task_pc pc') i ts ++ news)
   + (if holds_slot (t_pc t) then 1 else 0)
   = sum_list_with (λ t, if holds_slot (t_pc t) then 1 else 0) ts
     + (if holds_slot pc' then 1 else 0))%nat.
Proof.
  intros Hi Hnews. rewrite sum_list_with_app.
  assert (sum_list_with (λ t, if holds_slot (t_pc t) then 1%nat else 0%nat) news
          = 0%nat) as ->.
  { induction Hnews as [|n news Hn _ IH]; [done|]. simpl. by rewrite Hn, IH. }
  revert i Hi. induction ts as [|x ts IH]; intros i Hi; [done|].
  destruct i as [|i]; simpl in *.
  - simplify_eq. destruct (holds_slot (t_pc t)), (holds_slot pc'); lia.
  - specialize (IH i Hi).
    change (alter ?f ?k ?l) with (list_alter f k l) in IH.
    destruct (holds_slot (t_pc t)), (holds_slot pc'), (holds_slot (t_pc x));
      lia.
Qed.

Section scheduler.

Variable URL_Parse : URL → string → option URL.
Variable d : downloader.
Variable client_Get : nat → string → GetResult.
Variable html_Parse : string → option Node.
Variable MkdirAll_ok Create_ok : string → bool.

Local Abbreviation step_task' :=
  (step_task URL_Parse d client_Get html_Parse MkdirAll_ok Create_ok).
Local Abbreviation step' :=
  (step URL_Parse d client_Get html_Parse MkdirAll_ok Create_ok).
Local Abbreviation handle' :=
  (handle URL_Parse d html_Parse MkdirAll_ok Create_ok).

(** Inside the section the vocabulary is read at the section's parameters. *)
Local Abbreviation move := (move d).
Local Abbreviation spawned_by := (spawned_by d).
Local Abbreviation link_tasks := (link_tasks d).
Local Abbreviation Inv := (Inv d).
Local Abbreviation inv_mutex := (inv_mutex d).
Local Abbreviation inv_true := (inv_true d).
Local Abbreviation inv_insert := (inv_insert d).
Local Abbreviation inv_won := (inv_won d).
Local Abbreviation inv_lost := (inv_lost d).
Local Abbreviation inv_unique := (inv_unique d).
Local Abbreviation inv_claimed := (inv_claimed d).
Local Abbreviation inv_fetched := (inv_fetched d).
Local Abbreviation inv_fetched_nodup := (inv_fetched_nodup d).
Local Abbreviation inv_fetched_all := (inv_fetched_all d).
Local Abbreviation inv_sem := (inv_sem d).
Local Abbreviation inv_sem_bound := (inv_sem_bound d).
Local Abbreviation inv_depth := (inv_depth d).
Local Abbreviation inv_release := (inv_release d).
Local Abbreviation inv_skipped := (inv_skipped d).

Lemma handle_inv i t r s :
  tasks s !! i = Some t →
  (resp r = None ∧ handle' i t r s = panic s)
  ∨ ∃ o news,
      fetch_outcome o = true ∧ Forall (spawned_by t) news
      ∧ tasks (handle' i t r s) = upd i (PRelease o) news (tasks s)
      ∧ panicked (handle' i t r s) = panicked s
      ∧ same_shared s (handle' i t r s).
Proof.
  intros Hi. pose proof (lookup_lt_Some _ _ _ Hi) as Hlt.
  unfold handle, upd. destruct (resp r) as [rsp|]; [right|by left].
  assert (∀ o, fetch_outcome o = true →
    ∃ o' news, fetch_outcome o' = true ∧ Forall (spawned_by t) news
      ∧ tasks (set_pc i (PRelease o) s)
        = alter (set_task_pc (PRelease o')) i (tasks s) ++ news
      ∧ panicked (set_pc i (PRelease o) s) = panicked s
      ∧ same_shared s (set_pc i (PRelease o) s)) as Hsimple.
  { intros o Ho. exists o, []. rewrite app_nil_r. by repeat split. }
  repeat case_decide; try (by apply Hsimple).
  destruct (negb _); [by apply Hsimple|].
  destruct (negb _).
  { unfold saveNonHTML. destruct (Create_ok _); [|by apply Hsimple].
    exists Done, []. rewrite app_nil_r. by repeat split. }
  destruct (html_Parse _) as [doc|]; [|by apply Hsimple].
  pose proof (collectLinks_kept URL_Parse d doc (t_url t)) as Hkept.
  destruct (collectLinks _ _ _ _) as [resources pages].
  cbn [fst snd] in Hkept. apply Forall_app in Hkept as [Hres Hpages].
  rewrite spawn_all_eq. unfold saveHTML.
  set (news := map (λ u, mkTask u (t_depth t) PStart) resources
               ++ map (λ u, mkTask u (int_add (t_depth t) 1) PStart) pages).
  assert (Forall (spawned_by t) news) as Hnews.
  { apply Forall_app. split; apply Forall_forall;
      intros n (u & -> & Hu)%list_elem_of_fmap;
      (split; [done|]); (split; [auto|]); cbn.
    - by eapply (proj1 (Forall_forall _ _) Hres).
    - by eapply (proj1 (Forall_forall _ _) Hpages). }
  destruct (Create_ok _); rewrite spawn_all_eq; cbn.
  - exists Done, news. repeat split; try done.
    rewrite <- app_assoc. by apply alter_app_l.
  - exists Errored, news. repeat split; try done.
    rewrite <- app_assoc. by apply alter_app_l.
Qed.

Lemma step_task_inv i s s' :
  step_task' i s = Some s' →
  ∃ t, tasks s !! i = Some t ∧ panicked s = false
       ∧ ((∃ r, t_pc t = PHandle r ∧ resp r = None ∧ s' = panic s)
          ∨ ∃ pc' news,
              tasks s' = upd i pc' news (tasks s)
              ∧ Forall (spawned_by t) news
              ∧ panicked s' = false
              ∧ move i t s pc' s').
Proof.
  unfold step_task. destruct (panicked s) eqn:Hp; [done|].
  destruct (tasks s !! i) as [t|] eqn:Hi; [|done].
  intros H. exists t. split; [done|]. split; [done|].
  assert (∀ pc', alter (set_task_pc pc') i (tasks s)
                 = upd i pc' [] (tasks s)) as Hupd
    by (intros; unfold upd; by rewrite app_nil_r).
  unfold move.
  destruct (t_pc t) eqn:Hpc.
  - case_decide; simplify_eq; right; eexists _, [];
      (split; [apply Hupd|]); repeat split; done || lia.
  - destruct (visitedMu s) eqn:Hmu; simplify_eq. right.
    eexists _, []. (split; [apply Hupd|]). by repeat split.
  - destruct (default false _) eqn:Hv; simplify_eq; right; eexists _, [];
      (split; [apply Hupd|]); by repeat split.
  - simplify_eq. right. eexists _, [].
    (split; [apply Hupd|]). by repeat split.
  - simplify_eq. right. eexists _, [].
    (split; [apply Hupd|]). by repeat split.
  - simplify_eq. right. eexists _, [].
    (split; [apply Hupd|]). by repeat split.
  - case_decide; simplify_eq. right. eexists _, [].
    (split; [apply Hupd|]). by repeat split.
  - simplify_eq. right. eexists _, [].
    (split; [apply Hupd|]). by repeat split.
  - simplify_eq.
    destruct (handle_inv i t r s Hi) as [[Hr ->]|(o & news & Ho & Hn & Ht & Hpan & Hsame)].
    + left. eauto.
    + right. exists (PRelease o), news. rewrite Hpan.
      repeat (split; [done|]). done.
  - destruct (sem s) eqn:Hsem; simplify_eq. right. eexists _, [].
    (split; [apply Hupd|]). by repeat split.
  - done.
Qed.

Lemma Inv_init base : Inv (go_download base 0 empty_state).
Proof.
  split; cbn.
  all: try (by intros i t [-> <-]%list_lookup_singleton_Some).
  all: try (by intros i t o [-> <-]%list_lookup_singleton_Some).
  - intros x v Hv. by rewrite lookup_empty in Hv.
  - by intros i j ti tj [-> <-]%list_lookup_singleton_Some.
  - intros x [v Hv]. by rewrite lookup_empty in Hv.
  - intros f Hf. by apply elem_of_nil in Hf.
  - constructor.
  - done.
  - by left.
Qed.

Lemma Inv_panic s : Inv s → Inv (panic s).
Proof. intros []. by split. Qed.

(** The cases of [move], with the equations between the fields used. *)
Ltac move_cases Hmove Hpc :=
  unfold move, same_shared in Hmove;
  match type of Hmove with
  | match t_pc ?t with _ => _ end => destruct (t_pc t) eqn:Hpc
  end;
  repeat match type of Hmove with
         | match ?x with _ => _ end => destruct x
         end;
  try (exfalso; exact Hmove);
  destruct_and?;
  repeat match goal with
         | H : ?o' = ?o |- _ => is_var o'; is_var o; subst o'
         end.

Ltac use_fields :=
  repeat match goal with
         | H : visited ?x = _ |- context [visited ?x] => rewrite H
         | H : visitedMu ?x = _ |- context [visitedMu ?x] => rewrite H
         | H : sem ?x = _ |- context [sem ?x] => rewrite H
         | H : fetched ?x = _ |- context [fetched ?x] => rewrite H
         end.

Ltac task_cases Hj Hi :=
  apply (lookup_upd _ _ _ _ _ _ _ Hi) in Hj
    as [[-> ->]|[[? Hj]|(? & ? & Hj)]].

Lemma spawned_pc t news n : Forall (spawned_by t) news → n ∈ news → t_pc n = PStart.
Proof.
  intros Hall Hn. eapply Forall_forall in Hall; [|done]. by destruct Hall.
Qed.

Lemma urlStr_set_pc pc t : urlStr (set_task_pc pc t) = urlStr t.
Proof. done. Qed.

Lemma visited_default s x :
  Inv s → default false (visited s !! x) = false → visited s !! x = None.
Proof.
  intros HI Hd. destruct (visited s !! x) as [v|] eqn:Hv; [|done].
  apply (inv_true s HI) in Hv as ->. done.
Qed.

Lemma visited_default_true s x :
  Inv s → default false (visited s !! x) = true → visited s !! x = Some true.
Proof. intros HI Hd. by destruct (visited s !! x) as [[]|]. Qed.

(** A goroutine that has recorded its URL, or has fetched it, stays so. *)
Lemma won_stable i t s pc' s' :
  move i t s pc' s' → won (t_pc t) = true → won pc' = true.
Proof. intros Hmove. move_cases Hmove Hpc; subst; done. Qed.

Lemma has_fetched_stable i t s pc' s' :
  move i t s pc' s' → has_fetched (t_pc t) = true → has_fetched pc' = true.
Proof. intros Hmove. move_cases Hmove Hpc; subst; done. Qed.

Lemma visited_mono i t s pc' s' x :
  move i t s pc' s' → visited s !! x = Some true →
  visited s' !! x = Some true.
Proof.
  intros Hmove Hx. move_cases Hmove Hpc; use_fields; try done.
  rewrite lookup_insert. by case_decide.
Qed.

Lemma fetched_mono i t s pc' s' f :
  move i t s pc' s' → f ∈ fetched s → f ∈ fetched s'.
Proof.
  intros Hmove Hx. move_cases Hmove Hpc; use_fields; try done.
  apply elem_of_app. by left.
Qed.

Lemma Inv_step s s' : Inv s → step' s s' → Inv s'.
Proof.
  intros HI [i Hstep].
  apply step_task_inv in Hstep
    as (t & Hi & Hp & [(r & _ & _ & ->)|(pc' & news & Ht & Hnews & Hp' & Hmove)]);
    [by apply Inv_panic|].
  unfold upd in Ht.
  split.
  - (* mutex *)
    intros j tj Hj Hc. rewrite Ht in Hj. task_cases Hj Hi.
    + cbn in Hc. move_cases Hmove Hpc; try done; use_fields; try done.
      all: by eapply (inv_mutex s HI); [done|rewrite Hpc].
    + pose proof (inv_mutex s HI _ _ Hj Hc) as Hmu.
      move_cases Hmove Hpc; use_fields; try done; try congruence.
      all: assert (visitedMu s = Some i) as Hm
          by (eapply (inv_mutex s HI); [done|by rewrite Hpc]);
        congruence.
    + by rewrite (spawned_pc _ _ _ Hnews Hj) in Hc.
  - (* the values of the map *)
    move_cases Hmove Hpc; use_fields; try apply (inv_true s HI).
    intros x v. rewrite lookup_insert. case_decide; [congruence|].
    apply (inv_true s HI).
  - (* about to insert *)
    intros j tj Hj Hc. rewrite Ht in Hj. task_cases Hj Hi.
    + cbn in Hc. subst pc'. rewrite urlStr_set_pc.
      move_cases Hmove Hpc; use_fields. by apply visited_default.
    + pose proof (inv_insert s HI _ _ Hj Hc) as Hnone.
      move_cases Hmove Hpc; use_fields; try done.
      assert (visitedMu s = Some i) as Hm
        by (eapply (inv_mutex s HI); [done|by rewrite Hpc]).
      assert (visitedMu s = Some j) as Hm'
        by (eapply (inv_mutex s HI); [done|by rewrite Hc]).
      congruence.
    + by rewrite (spawned_pc _ _ _ Hnews Hj) in Hc.
  - (* winners are recorded *)
    intros j tj Hj Hc. rewrite Ht in Hj. task_cases Hj Hi.
    + cbn in Hc. rewrite urlStr_set_pc.
      destruct (won (t_pc t)) eqn:Hw.
      * eapply visited_mono; [done|]. by eapply (inv_won s HI).
      * move_cases Hmove Hpc; try done; try (cbn in Hc, Hw; congruence).
        use_fields. by rewrite lookup_insert_eq.
    + eapply visited_mono; [done|]. by eapply (inv_won s HI).
    + by rewrite (spawned_pc _ _ _ Hnews Hj) in Hc.
  - (* losers saw the URL recorded *)
    intros j tj Hj Hc. rewrite Ht in Hj. task_cases Hj Hi.
    + cbn in Hc. rewrite urlStr_set_pc.
      destruct (lost (t_pc t)) eqn:Hw.
      * eapply visited_mono; [done|]. by eapply (inv_lost s HI).
      * move_cases Hmove Hpc; try done; try (cbn in Hc, Hw; congruence).
        -- use_fields. by apply visited_default_true.
        -- apply (inv_release s HI _ _ _ Hi) in Hpc. by destruct o.
    + eapply visited_mono; [done|]. by eapply (inv_lost s HI).
    + by rewrite (spawned_pc _ _ _ Hnews Hj) in Hc.
  - (* one winner per URL *)
    assert (∀ j tj, j ≠ i → tasks s !! j = Some tj → won (t_pc tj) = true →
              won pc' = true → urlStr t = urlStr tj → False) as Hother.
    { intros j tj Hne Hj Hwj Hw' Hurl.
      destruct (won (t_pc t)) eqn:Hw.
      - apply Hne. by eapply (inv_unique s HI).
      - pose proof (inv_won s HI _ _ Hj Hwj) as Hv.
        move_cases Hmove Hpc; try done; try (cbn in Hw', Hw; congruence).
        assert (visited s !! urlStr t = None) as Hn
          by (by eapply (inv_insert s HI)).
        congruence. }
    intros j1 j2 t1 t2 H1 H2 Hw1 Hw2 Hurl. rewrite Ht in H1, H2.
    task_cases H1 Hi; task_cases H2 Hi; try done.
    + exfalso. by eapply (Hother j2 t2).
    + by rewrite (spawned_pc _ _ _ Hnews H2) in Hw2.
    + exfalso. by eapply (Hother j1 t1).
    + by eapply (inv_unique s HI).
    + by rewrite (spawned_pc _ _ _ Hnews H2) in Hw2.
    + by rewrite (spawned_pc _ _ _ Hnews H1) in Hw1.
    + by rewrite (spawned_pc _ _ _ Hnews H1) in Hw1.
    + by rewrite (spawned_pc _ _ _ Hnews H1) in Hw1.
  - (* every recorded URL has its winner *)
    assert (∀ x, is_Some (visited s !! x) →
              ∃ j tj, tasks s' !! j = Some tj ∧ won (t_pc tj) = true
                      ∧ urlStr tj = x) as Hold.
    { intros x Hx. destruct (inv_claimed s HI x Hx) as (j & tj & Hj & Hw & Hu).
      rewrite Ht. destruct (decide (j = i)) as [->|Hne].
      - exists i, (set_task_pc pc' t). rewrite (upd_lookup_same _ _ _ _ t) by done.
        simplify_eq. split; [done|]. split; [|done]. by eapply won_stable.
      - exists j, tj. by rewrite (upd_lookup_other _ _ _ _ _ tj). }
    intros x. move_cases Hmove Hpc; use_fields; try (by apply Hold).
    rewrite lookup_insert. case_decide as Hk.
    + intros _. subst x. exists i, (set_task_pc PUnlock t).
      rewrite Ht, (upd_lookup_same _ _ _ _ t) by done. done.
    + apply Hold.
  - (* every call belongs to a goroutine past the call *)
    assert (∀ f, f ∈ fetched s →
              ∃ t0, tasks s' !! f_task f = Some t0
                    ∧ has_fetched (t_pc t0) = true
                    ∧ f_url f = urlStr t0 ∧ f_depth f = t_depth t0) as Hold.
    { intros f Hf. destruct (inv_fetched s HI f Hf) as (tj & Hj & Hw & Hu & Hd).
      rewrite Ht. destruct (decide (f_task f = i)) as [Hfi|Hne].
      - exists (set_task_pc pc' t). rewrite Hfi, (upd_lookup_same _ _ _ _ t) by done.
        rewrite Hfi in Hj. simplify_eq.
        split; [done|]. split; [|done]. by eapply has_fetched_stable.
      - exists tj. by rewrite (upd_lookup_other _ _ _ _ _ tj). }
    intros f. move_cases Hmove Hpc; use_fields; try (by apply Hold).
    intros [Hf|Hf%list_elem_of_singleton]%elem_of_app; [by apply Hold|].
    subst f. exists (set_task_pc (PHandle r) t). cbn [f_task f_url f_depth].
    rewrite Ht, (upd_lookup_same _ _ _ _ t) by done. done.
  - (* one call per goroutine *)
    move_cases Hmove Hpc; use_fields; try apply (inv_fetched_nodup s HI).
    rewrite fmap_app. apply NoDup_app. split; [apply (inv_fetched_nodup s HI)|].
    split; [|apply NoDup_singleton].
    intros k (f & -> & Hf)%list_elem_of_fmap Hk.
    apply list_elem_of_singleton in Hk. cbn in Hk.
    destruct (inv_fetched s HI f Hf) as (tj & Hj & Hw & _).
    rewrite Hk in Hj. simplify_eq. by rewrite Hpc in Hw.
  - (* every goroutine past the call has its call recorded *)
    intros j tj Hj Hc. rewrite Ht in Hj. task_cases Hj Hi.
    + cbn in Hc. destruct (has_fetched (t_pc t)) eqn:Hw.
      * destruct (inv_fetched_all s HI _ _ Hi Hw) as (f & Hf & Hfi).
        exists f. split; [|done]. by eapply fetched_mono.
      * move_cases Hmove Hpc; try done; try (cbn in Hc, Hw; congruence).
        use_fields. eexists. split; [apply elem_of_app; right; by apply list_elem_of_singleton|].
        done.
    + destruct (inv_fetched_all s HI _ _ Hj Hc) as (f & Hf & Hfi).
      exists f. split; [|done]. by eapply fetched_mono.
    + by rewrite (spawned_pc _ _ _ Hnews Hj) in Hc.
  - (* the channel counts the fetches in flight *)
    unfold in_flight. rewrite Ht.
    assert (Forall (λ n, t_pc n = PStart) news) as Hstart.
    { eapply Forall_impl; [exact Hnews|]. by intros n [? _]. }
    pose proof (in_flight_upd (tasks s) news pc' i t Hi Hstart) as Hsum.
    pose proof (inv_sem s HI) as Hsem. unfold in_flight in Hsem.
    move_cases Hmove Hpc; use_fields; cbn in Hsum; lia.
  - (* the channel never holds more than its capacity *)
    pose proof (inv_sem_bound s HI) as Hb.
    move_cases Hmove Hpc; use_fields; try done; lia.
  - (* past the depth check *)
    intros j tj Hj Hc. rewrite Ht in Hj. task_cases Hj Hi.
    + cbn in Hc. cbn [t_depth set_task_pc].
      destruct (passed_depth (t_pc t)) eqn:Hw.
      * by eapply (inv_depth s HI).
      * move_cases Hmove Hpc; try done; try (cbn in Hc, Hw; congruence).
    + by eapply (inv_depth s HI).
    + by rewrite (spawned_pc _ _ _ Hnews Hj) in Hc.
  - (* only fetch outcomes are released *)
    intros j tj o Hj Hc. rewrite Ht in Hj. task_cases Hj Hi.
    + cbn in Hc. subst pc'. by move_cases Hmove Hpc.
    + by eapply (inv_release s HI).
    + by rewrite (spawned_pc _ _ _ Hnews Hj) in Hc.
  - (* skipped means too deep *)
    intros j tj Hj Hc. rewrite Ht in Hj. task_cases Hj Hi.
    + cbn in Hc. subst pc'. cbn [t_depth set_task_pc].
      move_cases Hmove Hpc; [done|]. subst.
      by apply (inv_release s HI _ _ _ Hi) in Hpc.
    + by eapply (inv_skipped s HI).
    + by rewrite (spawned_pc _ _ _ Hnews Hj) in Hc.
Qed.

Lemma Inv_run s0 s : Inv s0 → rtc step' s0 s → Inv s.
Proof. induction 2; eauto using Inv_step. Qed.

Lemma link_tasks_init base : link_tasks base (go_download base 0 empty_state).
Proof. intros i t [-> <-]%list_lookup_singleton_Some. by left. Qed.

Lemma link_tasks_step base s s' :
  link_tasks base s → step' s s' → link_tasks base s'.
Proof.
  intros HL [i Hstep].
  apply step_task_inv in Hstep
    as (t & Hi & Hp & [(r & _ & _ & ->)|(pc' & news & Ht & Hnews & _ & _)]);
    [done|].
  intros j tj Hj. unfold upd in Ht. rewrite Ht in Hj. task_cases Hj Hi.
  - apply (HL i t Hi).
  - by apply (HL j tj).
  - right. eapply Forall_forall in Hnews; [|done]. apply Hnews.
Qed.

Lemma link_tasks_run base s0 s :
  link_tasks base s0 → rtc step' s0 s → link_tasks base s.
Proof. induction 2; eauto using link_tasks_step. Qed.

Lemma run_rtc sched s s' :
  run URL_Parse d client_Get html_Parse MkdirAll_ok Create_ok sched s = Some s' →
  rtc step' s s'.
Proof.
  revert s. induction sched as [|i sched IH]; intros s; simpl.
  - by intros [= ->].
  - destruct (step_task' i s) as [s1|] eqn:Hs; [|done].
    intros H. eapply rtc_l; [by exists i|]. by apply IH.
Qed.

End scheduler.

(** * The claims about the path mapper *)




(** * Distinct URLs and local files *)

(** C6, as stated, fails: two URLs of the host that differ in their query
    only are distinct, have distinct visited keys, and map to one local
    file, neither being an index file. *)
Lemma query_urls_share_a_file :
  URL_String (mkURL "https" "example.com" "/page" "id=1" "")
  ≠ URL_String (mkURL "https" "example.com" "/page" "id=2" "")
  ∧ ¬ distinct_files site.
Proof.
  split; [by vm_compute|].
  intros H.
  destruct (H (mkURL "https" "example.com" "/page" "id=1" "")
              (mkURL "https" "example.com" "/page" "id=2" ""))
    as [[_ Ha]|[_ Ha]]; try done; vm_compute in Ha; discriminate Ha.
Qed.

(** C6 (amended): two URLs of the mirror host whose cleaned paths differ
    map to distinct local files, unless one is directory-like and the other
    names its index file. (URLs that differ only in scheme, query or
    fragment share their local file.) *)
Theorem makeLocalPath_injective d u1 u2 :
  rootDir d ≠ "" → filepath.slashed (rootDir d) = false →
  url_path_ok u1 → url_path_ok u2 →
  path_elems u1 ≠ path_elems u2 →
  ¬ index_alias d u1 u2 → ¬ index_alias d u2 u1 →
  makeLocalPath d u1 ≠ makeLocalPath d u2.
Proof.
  intros Hne Hroot Hu1 Hu2 Hdiff Ha1 Ha2 Heq.
  pose proof (path_elems_real u1) as Hr1.
  pose proof (path_elems_real u2) as Hr2.
  assert (∀ B, Forall real B → Forall good (root_elems d ++ B)) as Hgood.
  { intros B HB. by eapply stk_good, elems_stk. }
  assert (Forall real ["index.html"]) as Hidx
    by (constructor; [apply real_index_html|done]).
  destruct (makeLocalPath_shape d u1 Hne Hroot Hu1) as [[E1 J1]|[E1 J1]];
    destruct (makeLocalPath_shape d u2 Hne Hroot Hu2) as [[E2 J2]|[E2 J2]];
    rewrite E1, E2 in Heq; apply render_inj in Heq;
    try (apply Hgood; rewrite ?Forall_app; done);
    apply app_inv_head in Heq.
  - done.
  - apply Ha2. split; [done|]. done.
  - apply Ha1. split; [done|]. done.
  - by apply app_inj_tail in Heq as [? _].
Qed.

Lemma makeLocalPath_injective_witness :
  makeLocalPath site (at_path "/about") ≠ makeLocalPath site (at_path "/logo.png").
Proof.
  apply (makeLocalPath_injective site (at_path "/about") (at_path "/logo.png")).
  - by vm_compute.
  - by vm_compute.
  - by right.
  - by right.
  - by vm_compute.
  - intros [_ H]. vm_compute in H. discriminate H.
  - intros [_ H]. vm_compute in H. discriminate H.
Defined.

(** * The claims about the link classifier and the link rewriter *)

Section link_claims.

Variable URL_Parse : URL → string → option URL.
Variable d : downloader.

Local Abbreviation rewriteLinks' := (rewriteLinks URL_Parse d).
Local Abbreviation collectLinks' := (collectLinks URL_Parse d).

(** C7: the resources are the links of the [link], [script] and [img]
    elements, the pages those of the [a] elements, in document order, each
    element giving at most one link: the one of its first attribute under
    its key ([href] or [src]) that resolves against the base URL (the base
    scheme standing in for a missing one) to an http or https URL of the
    mirror host; the link is returned with an empty fragment. *)
Theorem collectLinks_spec doc base :
  (collectLinks' doc base).1 = omap (resource_of URL_Parse d base) (flatten doc)
  ∧ (collectLinks' doc base).2 = omap (page_of URL_Parse d base) (flatten doc)
  ∧ Forall (kept_link d)
           ((collectLinks' doc base).1 ++ (collectLinks' doc base).2).
Proof.
  split; [by rewrite collectLinks_eq|]. split; [by rewrite collectLinks_eq|].
  apply collectLinks_kept.
Qed.

Lemma Forall2_flatten_rewriteLinks (R : Node → Node → Prop) doc base cur :
  (∀ n, R n (rewriteLinks' n base cur)) →
  Forall2 R (flatten doc) (flatten (rewriteLinks' doc base cur)).
Proof.
  intros HR. rewrite flatten_rewriteLinks.
  apply Forall2_fmap_r, Forall_Forall2_diag, Forall_forall. auto.
Qed.

Lemma Type_rewriteLinks n base cur : Type_ (rewriteLinks' n base cur) = Type_ n.
Proof. unfold rewriteLinks. by rewrite traverse_unit. Qed.

Lemma Data_rewriteLinks n base cur : Data (rewriteLinks' n base cur) = Data n.
Proof. unfold rewriteLinks. by rewrite traverse_unit. Qed.

(** C8: the rewriter keeps the type and tag of every node and the
    namespace and key of every attribute, and an attribute whose value
    does not resolve against the base URL, or resolves to another host,
    is the same before and after. *)
Theorem rewriteLinks_keeps_foreign_links doc base cur :
  Forall2
    (λ n n',
       Type_ n' = Type_ n ∧ Data n' = Data n
       ∧ Forall2
           (λ a a',
              Namespace a' = Namespace a ∧ Key a' = Key a
              ∧ ((∀ abs, URL_Parse base (Val a) = Some abs →
                         Host abs ≠ host d) → a' = a))
           (Attr n) (Attr n'))
    (flatten doc) (flatten (rewriteLinks' doc base cur)).
Proof.
  apply Forall2_flatten_rewriteLinks. intros n.
  rewrite Type_rewriteLinks, Data_rewriteLinks, Attr_rewriteLinks.
  split; [done|]. split; [done|].
  destruct (rewrite_key n) as [k|].
  - eapply Forall2_impl; [apply rewrite_attrs_frame|].
    intros a a' [->|(abs & relPath & _ & [Hp Hh] & _ & ->)]; [done|].
    repeat split. intros Hforeign. by destruct (Hforeign abs Hp).
  - apply Forall_Forall2_diag, Forall_forall. done.
Qed.

(** The link attribute of an element is rewritten to the relative path
    that [filepath.Rel] finds from the document's directory to the local
    path of the target, and that path leads there. *)
Lemma rewrite_link_attr base n i a abs :
  rootDir d ≠ "" → filepath.slashed (rootDir d) = false →
  url_path_ok base → url_path_ok abs →
  link_attr URL_Parse d base n i a abs →
  ∃ relPath,
    filepath.Rel (filepath.Dir (makeLocalPath d base)) (makeLocalPath d abs)
    = Some relPath
    ∧ filepath.Join [filepath.Dir (makeLocalPath d base); relPath]
      = makeLocalPath d abs
    ∧ Attr (rewriteLinks' n base (makeLocalPath d base)) !! i
      = Some (set_Val relPath a).
Proof.
  intros Hne Hroot Hbase Habs (k & Hk & Hi & Hkey & Hsame & Hfirst).
  destruct (Rel_localPath d base abs Hne Hroot Hbase Habs)
    as (relPath & Hrel & Hjoin).
  exists relPath. split; [done|]. split; [done|].
  rewrite Attr_rewriteLinks, Hk.
  rewrite (rewrite_attrs_first URL_Parse d base _ k (Attr n) i a abs relPath)
    by done.
  apply list_lookup_insert_eq. by eapply lookup_lt_Some.
Qed.



End link_claims.

(** * The claims about the run *)

Section run_claims.

Variable URL_Parse : URL → string → option URL.
Variable d : downloader.
Variable client_Get : nat → string → GetResult.
Variable html_Parse : string → option Node.
Variable MkdirAll_ok Create_ok : string → bool.

Local Abbreviation step_task' :=
  (step_task URL_Parse d client_Get html_Parse MkdirAll_ok Create_ok).
Local Abbreviation step' :=
  (step URL_Parse d client_Get html_Parse MkdirAll_ok Create_ok).
Local Abbreviation Inv' := (Inv d).

(** C1 (what the code does): when [client.Get] fails at the transport
    level, returning no response, the goroutine that made the call panics
    on [resp.Status] (line 121) before the error is looked at: it never
    returns, and no goroutine of the run takes another step. *)
Theorem transport_failure_panics i t s e :
  panicked s = false → tasks s !! i = Some t → t_pc t = PGet →
  client_Get (length (fetched s)) (urlStr t) = mkGetResult None (Some e) →
  ∃ s1 s2,
    step_task' i s = Some s1 ∧ step_task' i s1 = Some s2
    ∧ panicked s2 = true
    ∧ (∃ t', tasks s2 !! i = Some t' ∧ returned (t_pc t') = false)
    ∧ ∀ j, step_task' j s2 = None.
Proof.
  intros Hp Hi Hpc Hget.
  pose proof (lookup_lt_Some _ _ _ Hi) as Hlt.
  eexists _, _. split; [|split].
  - unfold step_task. rewrite Hp, Hi, Hpc. fold (urlStr t). by rewrite Hget.
  - unfold step_task. cbn [panicked set_pc log_fetch tasks]. rewrite Hp.
    rewrite list_lookup_alter, decide_True, Hi by done. cbn. done.
  - cbn. split; [done|]. split.
    + eexists. rewrite list_lookup_alter, decide_True, Hi by done.
      cbn. done.
    + done.
Qed.

Lemma normalized_id u : Fragment u = "" → normalized u = u.
Proof. destruct u. cbn. by intros ->. Qed.

Lemma omap_fmap_Some {A B : Type} (g : A → option B) (h : A → B)
    (l : list A) :
  (∀ x, x ∈ l → g x = Some (h x)) → omap g l = h <$> l.
Proof.
  induction l as [|x l IH]; intros Hg; [done|]. cbn.
  rewrite (Hg x) by (apply elem_of_cons; auto). cbn. f_equal.
  apply IH. intros y Hy. apply Hg, elem_of_cons. auto.
Qed.

(** When no task carries a fragment, the calls are calls on normalized
    URLs. *)
Lemma fetched_normalized_keys s :
  Inv' s → (∀ i t, tasks s !! i = Some t → Fragment (t_url t) = "") →
  fetched_normalized s = f_url <$> fetched s.
Proof.
  intros HI Hfree. apply omap_fmap_Some. intros f Hf.
  destruct (inv_fetched d s HI f Hf) as (t & Ht & _ & -> & _).
  rewrite Ht. cbn. by rewrite (normalized_id _ (Hfree _ _ Ht)).
Qed.

(** The first goroutine can go from its start to its call of
    [client.Get]. *)
Lemma first_fetch base :
  0 ≤ maxDepth d → 0 < concurrencyLimit d →
  ∃ s', rtc step' (go_download base 0 empty_state) s'
        ∧ f_url <$> fetched s' = [URL_String base].
Proof.
  intros Hdepth Hlimit. eexists. split.
  - eapply rtc_l.
    { exists 0%nat. unfold step_task. cbn.
      rewrite decide_False by lia. done. }
    eapply rtc_l. { exists 0%nat. unfold step_task. cbn. done. }
    eapply rtc_l.
    { exists 0%nat. unfold step_task. cbn. rewrite lookup_empty. done. }
    eapply rtc_l. { exists 0%nat. unfold step_task. cbn. done. }
    eapply rtc_l. { exists 0%nat. unfold step_task. cbn. done. }
    eapply rtc_l.
    { exists 0%nat. unfold step_task. cbn.
      rewrite decide_True by lia. done. }
    eapply rtc_l. { exists 0%nat. unfold step_task. cbn. done. }
    apply rtc_refl.
  - done.
Qed.



End run_claims.

(** C9: in every state of a run that [main] starts with the concurrency
    limit [conLimit], the goroutines between the send on [d.sem] and the
    deferred receive, those with a call of [client.Get] ahead or under
    way, are as many as the values in the channel, and no more than
    [conLimit]. *)
Theorem fetches_in_flight_bounded url_Parse URL_Parse client_Get html_Parse
    MkdirAll_ok Create_ok startURL conLimit depthLimit d s0 s :
  main_start url_Parse MkdirAll_ok startURL conLimit depthLimit = Some (d, s0) →
  rtc (step URL_Parse d client_Get html_Parse MkdirAll_ok Create_ok) s0 s →
  sem s = in_flight s ∧ Z.of_nat (in_flight s) ≤ conLimit.
Proof.
  unfold main_start. intros Hmain Hrun.
  repeat case_decide; try done.
  destruct (url_Parse startURL) as [base|]; [|done].
  destruct (negb _); [done|]. injection Hmain as <- <-.
  eapply Inv_run in Hrun; [|apply Inv_init].
  pose proof (inv_sem _ _ Hrun) as Hsem.
  pose proof (inv_sem_bound _ _ Hrun) as Hb. cbn in Hb.
  split; [done|]. lia.
Qed.

(** * The claims on the small site *)

Lemma run_finished : Fixture.run_site site in_turn start = Some finished.
Proof. by vm_compute. Qed.

Lemma run_expanded :
  Fixture.run_site site0 (Fixture.burst 8 0) start = Some expanded.
Proof. by vm_compute. Qed.

Lemma run_calling :
  Fixture.run_site site (Fixture.burst 6 0) start_missing = Some calling.
Proof. by vm_compute. Qed.

(** The scenario of the specification: the home page, its style sheet, its
    image and the page it links to are fetched, once each; the links back
    to the home page are duplicates, the links of the second page are too
    deep. *)
Example finished_fetches :
  f_url <$> fetched finished
  = ["https://example.com/"; "https://example.com/style.css";
     "https://example.com/logo.png"; "https://example.com/about"]
  ∧ t_pc <$> tasks finished
    = [PDone Done; PDone Done; PDone Done; PDone Done;
       PDone Duplicate; PDone Duplicate; PDone Skipped; PDone Skipped]
  ∧ (fst <$> saved finished)
    = ["example.com/about/index.html"; "example.com/logo.png";
       "example.com/style.css"; "example.com/index.html"].
Proof. by vm_compute. Qed.

Lemma transport_failure_panics_witness :
  ∃ s1 s2,
    step_task Fixture.Parse site Fixture.Get Fixture.html_Parse
              Fixture.always Fixture.always 0 calling = Some s1
    ∧ step_task Fixture.Parse site Fixture.Get Fixture.html_Parse
                Fixture.always Fixture.always 0 s1 = Some s2
    ∧ panicked s2 = true
    ∧ (∃ t', tasks s2 !! 0%nat = Some t' ∧ returned (t_pc t') = false)
    ∧ ∀ j, step_task Fixture.Parse site Fixture.Get Fixture.html_Parse
                     Fixture.always Fixture.always j s2 = None.
Proof.
  apply (transport_failure_panics Fixture.Parse site Fixture.Get
           Fixture.html_Parse Fixture.always Fixture.always
           0 (mkTask (at_path "/missing") 0 PGet) calling
           "dial tcp: lookup failed");
    by vm_compute.
Defined.


Lemma run_revisited :
  run Fixture.Parse site Get_anchor Fixture.html_Parse Fixture.always
      Fixture.always (Fixture.burst 9 0 ++ Fixture.burst 9 4) start_anchor
  = Some revisited.
Proof. by vm_compute. Qed.

(** The run from the start URL [https://example.com/#top]: the home page
    is requested under the key of the start URL and again, for its own
    link [#top], under the key without fragment; its file is written
    twice. *)
Example revisited_fetches :
  f_url <$> fetched revisited
  = ["https://example.com/#top"; "https://example.com/"]
  ∧ fetched_normalized revisited
    = ["https://example.com/"; "https://example.com/"]
  ∧ (fst <$> saved revisited)
    = ["example.com/index.html"; "example.com/index.html"].
Proof. by vm_compute. Qed.




Lemma fetches_in_flight_bounded_witness :
  sem expanded = in_flight expanded ∧ Z.of_nat (in_flight expanded) ≤ 5.
Proof.
  apply (fetches_in_flight_bounded Fixture.url_Parse Fixture.Parse Fixture.Get
           Fixture.html_Parse Fixture.always Fixture.always
           "https://example.com/" 5 0 site0 start expanded).
  - by vm_compute.
  - apply (run_rtc _ _ _ _ _ _ (Fixture.burst 8 0)). exact run_expanded.
Defined.

(** The home page after rewriting: its links lead to the local files. *)
Example home_rewritten :
  (λ n, Val <$> Attr n)
    <$> flatten (rewriteLinks Fixture.Parse site Fixture.home_doc Fixture.home
                   (makeLocalPath site Fixture.home))
  = [[]; []; []; ["stylesheet"; "style.css"]; []; ["about/index.html"]; [];
     ["logo.png"; "logo"]; ["index.html"]; ["https://other.org/x"];
     ["index.html"]].
Proof. by vm_compute. Qed.

Example home_links :
  collectLinks Fixture.Parse site Fixture.home_doc Fixture.home
  = ([at_path "/style.css"; at_path "/logo.png"],
     [at_path "/about"; at_path "/"; at_path "/"]).
Proof. by vm_compute. Qed.

(** Two link attributes of the home page: the in-page anchor, which
    resolves to the page's own URL with the fragment [top], and the style
    sheet, the second attribute of its element. *)
Example home_link_attrs :
  link_attr Fixture.Parse site Fixture.home
    (Fixture.elem "a" [Fixture.attr "href" "#top"] []) 0
    (Fixture.attr "href" "#top") (set_Fragment "top" Fixture.home)
  ∧ url_path_ok (set_Fragment "top" Fixture.home)
  ∧ link_attr Fixture.Parse site Fixture.home
      (Fixture.elem "link" [Fixture.attr "rel" "stylesheet";
                            Fixture.attr "href" "/style.css"] []) 1
      (Fixture.attr "href" "/style.css") (at_path "/style.css")
  ∧ url_path_ok (at_path "/style.css").
Proof.
  split; [|split; [by right|split; [|by right]]].
  - exists "href". repeat split; try by vm_compute. intros j b abs' Hj. lia.
  - exists "href". repeat split; try by vm_compute.
    intros [|[|j]] b abs' Hj Hb Hk; [|lia..].
    injection Hb as <-. by vm_compute in Hk.
Qed.



(** * Further properties of the path mapper *)

Lemma real_unslashed e : real e → e ≠ "" ∧ filepath.slashed e = false.
Proof.
  intros (Hne & _ & _ & Hsep). split; [done|].
  destruct e as [|c r]; [done|]. simpl in *. by apply orb_false_iff in Hsep as [? _].
Qed.

Lemma root_elems_real d : real (rootDir d) → root_elems d = [rootDir d].
Proof.
  intros Hr. unfold root_elems, filepath.clean_elems.
  rewrite Split_sepfree by apply Hr. simpl. by rewrite clean_step_real.
Qed.

Lemma Join_nonempty_Clean a b :
  b ≠ "" → ∃ p, filepath.Join [a; b] = filepath.Clean p.
Proof.
  intros Hb. simpl. case_decide; [|by eexists].
  rewrite decide_False by done. by eexists.
Qed.

Lemma Clean_nonempty p : filepath.Clean p ≠ "".
Proof. unfold filepath.Clean. case_decide; [done|apply render_nonempty]. Qed.

Lemma HasSuffix_app_sep a : strings.HasSuffix (a +:+ "/") "/" = true.
Proof.
  induction a as [|c r IH]; [done|].
  change (String c r +:+ "/") with (String c (r +:+ "/")).
  rewrite HasSuffix_cons; [done|]. by destruct r.
Qed.

Lemma HasSuffix_app_index a : strings.HasSuffix (a +:+ "/index.html") "/" = false.
Proof.
  induction a as [|c r IH]; [done|].
  change (String c r +:+ "/index.html") with (String c (r +:+ "/index.html")).
  rewrite HasSuffix_cons; [done|]. by destruct r.
Qed.

Lemma app_sep_nonempty (a : string) c x : a +:+ String c x ≠ "".
Proof. by destruct a. Qed.

Lemma url_path_ok_app u x :
  url_path_ok u → url_path_ok (set_Path (Path u +:+ String filepath.Separator x) u).
Proof.
  intros [Hu|Hu]; right; cbn.
  - by rewrite Hu.
  - rewrite slashed_app; [done|]. intros Hp. by rewrite Hp in Hu.
Qed.

Lemma path_elems_app_sep u :
  path_elems (set_Path (Path u +:+ "/") u) = path_elems u.
Proof.
  unfold path_elems, filepath.clean_elems. cbn [Path set_Path].
  change "/"%string with (String filepath.Separator "").
  by rewrite Split_app, fold_left_app.
Qed.

Lemma path_elems_app_index u :
  path_elems (set_Path (Path u +:+ "/index.html") u)
  = path_elems u ++ ["index.html"].
Proof.
  unfold path_elems, filepath.clean_elems. cbn [Path set_Path].
  change "/index.html"%string with (String filepath.Separator "index.html").
  rewrite Split_app, fold_left_app. done.
Qed.

(** With the index rule applied, the local path ends in [index.html]. *)
Lemma makeLocalPath_indexed d u :
  rootDir d ≠ "" → filepath.slashed (rootDir d) = false → url_path_ok u →
  bool_decide (Path u = "") || strings.HasSuffix (Path u) "/"
  || bool_decide (filepath.Ext (joined d u) = "") = true →
  makeLocalPath d u
  = filepath.render false (root_elems d ++ path_elems u ++ ["index.html"]).
Proof.
  intros Hne Hroot Hu Hc. unfold makeLocalPath. fold (joined d u).
  rewrite Hc, (joined_shape d u Hne Hroot Hu), Join2_render_elem.
  - by rewrite <- app_assoc.
  - apply elems_stk, path_elems_real.
  - apply real_index_html.
Qed.

Lemma real_last_elem p :
  p ≠ "" → strings.HasSuffix p "/" = false → ¬ dot_segment (last_elem p) →
  real (last_elem p).
Proof.
  intros Hne Hsuf Hdot. repeat split.
  - intros Hl. apply last_elem_empty_HasSuffix in Hl; [congruence|done].
  - intros Hl. apply Hdot. by left.
  - intros Hl. apply Hdot. by right.
  - pose proof (Split_elems_sepfree p) as Hsep.
    destruct (exists_last (Split_nonempty p filepath.Separator))
      as (X & e & HX).
    unfold last_elem. rewrite HX in *. rewrite last_last.
    apply Forall_app in Hsep as [_ Hsep]. by apply Forall_inv in Hsep.
Qed.

Lemma Ext_joined d u :
  real (last_elem (Path u)) →
  filepath.Ext (joined d u) = filepath.Ext (Path u).
Proof.
  intros Hreal. rewrite !Ext_last_elem. unfold joined.
  rewrite last_elem_Join2; rewrite last_elem_Clean; done.
Qed.

(** X1: when the root directory is a single real path element (a host
    name, as [main] sets it) and the URL path is empty or rooted, the local
    path is the root directory followed by real elements only: no element
    is empty, [.] or [..], so dot segments in a URL never lead out of the
    root directory. *)
Theorem makeLocalPath_under_rootDir d u :
  real (rootDir d) → url_path_ok u →
  ∃ B, Forall real B
       ∧ strings.Split (makeLocalPath d u) filepath.Separator = rootDir d :: B.
Proof.
  intros Hr Hu. destruct (real_unslashed _ Hr) as [Hne Hroot].
  destruct (makeLocalPath_elems d u Hne Hroot Hu) as (B & HB & ->).
  exists B. split; [done|]. rewrite root_elems_real by done.
  rewrite Split_render_unrooted; [done|].
  constructor; [by apply real_good|].
  eapply Forall_impl; [exact HB|apply real_good].
Qed.

Lemma makeLocalPath_under_rootDir_witness :
  ∃ B, Forall real B
       ∧ strings.Split (makeLocalPath site (at_path "/../../etc/passwd"))
                       filepath.Separator
         = "example.com" :: B.
Proof.
  apply (makeLocalPath_under_rootDir site (at_path "/../../etc/passwd")).
  - by repeat split.
  - by right.
Defined.

(** X2: whatever the root directory and the URL, the local path is not
    empty and is in the form [filepath.Clean] gives: cleaning it again
    changes nothing. *)
Theorem makeLocalPath_canonical d u :
  makeLocalPath d u ≠ ""
  ∧ filepath.Clean (makeLocalPath d u) = makeLocalPath d u.
Proof.
  assert (∃ p, makeLocalPath d u = filepath.Clean p) as [p ->].
  { unfold makeLocalPath. destruct (_ || _ || _).
    - by apply Join_nonempty_Clean.
    - apply Join_nonempty_Clean, Clean_nonempty. }
  split; [apply Clean_nonempty|apply Clean_idem].
Qed.

(** X3: the index rule makes URLs share a file. A URL path followed by
    [/] and the same path followed by [/index.html] have one local path;
    and a directory-like path that does not end in a dot segment has that
    local path too. *)
Theorem makeLocalPath_index_aliases d u :
  rootDir d ≠ "" → filepath.slashed (rootDir d) = false → url_path_ok u →
  makeLocalPath d (set_Path (Path u +:+ "/") u)
  = makeLocalPath d (set_Path (Path u +:+ "/index.html") u)
  ∧ (directory_like (Path u) = true → ¬ dot_segment (last_elem (Path u)) →
     makeLocalPath d u = makeLocalPath d (set_Path (Path u +:+ "/") u)).
Proof.
  intros Hne Hroot Hu.
  assert (makeLocalPath d (set_Path (Path u +:+ "/") u)
          = filepath.render false
              (root_elems d ++ path_elems u ++ ["index.html"])) as Hdir.
  { rewrite makeLocalPath_indexed; try done.
    - by rewrite path_elems_app_sep.
    - by apply (url_path_ok_app u "").
    - cbn [Path set_Path]. by rewrite HasSuffix_app_sep, orb_true_r. }
  split.
  - rewrite Hdir.
    pose proof (url_path_ok_app u "index.html" Hu) as Hu'.
    pose proof (joined_shape d (set_Path (Path u +:+ "/index.html") u)
                  Hne Hroot Hu') as HJ.
    rewrite path_elems_app_index in HJ.
    assert (filepath.Ext (joined d (set_Path (Path u +:+ "/index.html") u))
            = ".html") as HE.
    { rewrite HJ. unfold filepath.Ext. rewrite app_assoc, last_Split_render.
      - done.
      - rewrite <- app_assoc. eapply stk_good, elems_stk, Forall_app.
        split; [apply path_elems_real|].
        constructor; [apply real_index_html|done]. }
    unfold makeLocalPath.
    fold (joined d (set_Path (Path u +:+ "/index.html") u)).
    rewrite HE, HJ. cbn [Path set_Path]. rewrite HasSuffix_app_index.
    rewrite bool_decide_eq_false_2
      by apply (app_sep_nonempty _ "/" "index.html").
    done.
  - intros Hdl Hdot. rewrite Hdir. apply makeLocalPath_indexed; try done.
    unfold directory_like in Hdl.
    destruct (bool_decide (Path u = "")) eqn:Hempty; [done|].
    destruct (strings.HasSuffix (Path u) "/") eqn:Hsuf; [done|].
    cbn [orb] in *. apply bool_decide_eq_false in Hempty.
    rewrite Ext_joined; [done|]. by apply real_last_elem.
Qed.

Lemma makeLocalPath_index_aliases_witness :
  makeLocalPath site (set_Path "/about/" (at_path "/about"))
  = makeLocalPath site (set_Path "/about/index.html" (at_path "/about"))
  ∧ makeLocalPath site (at_path "/about")
    = makeLocalPath site (set_Path "/about/" (at_path "/about")).
Proof.
  destruct (makeLocalPath_index_aliases site (at_path "/about"))
    as [Hindex Hdir].
  - by vm_compute.
  - by vm_compute.
  - by right.
  - split; [exact Hindex|]. apply Hdir.
    + by vm_compute.
    + vm_compute. intros [H|H]; discriminate H.
Defined.

(** * Further properties of the tree walk, the classifier and the rewriter *)

Lemma visit_each_app {S : Type} (fn : Node → S → list Attribute * S) l1 l2 s :
  visit_each fn (l1 ++ l2) s
  = let '(a1, s1) := visit_each fn l1 s in
    let '(a2, s2) := visit_each fn l2 s1 in
    (a1 ++ a2, s2).
Proof.
  revert s. induction l1 as [|n l1 IH]; intros s; simpl.
  - by destruct (visit_each fn l2 s).
  - destruct (fn n s) as [a s1]. rewrite IH.
    destruct (visit_each fn l1 s1) as [a1 s2].
    by destruct (visit_each fn l2 s2).
Qed.

Lemma traverse_siblings_visit {S : Type} (fn : Node → S → list Attribute * S)
    cs :
  Forall (λ c, ∀ s,
            (Attr <$> flatten (traverse fn c s).1, (traverse fn c s).2)
            = visit_each fn (flatten c) s
            ∧ (λ m, (Type_ m, Data m)) <$> flatten (traverse fn c s).1
              = (λ m, (Type_ m, Data m)) <$> flatten c) cs →
  ∀ s, (Attr <$> flat_map flatten (traverse_siblings fn cs s).1,
        (traverse_siblings fn cs s).2)
       = visit_each fn (flat_map flatten cs) s
       ∧ (λ m, (Type_ m, Data m))
           <$> flat_map flatten (traverse_siblings fn cs s).1
         = (λ m, (Type_ m, Data m)) <$> flat_map flatten cs.
Proof.
  induction 1 as [|c cs Hc _ IH]; intros s; [done|].
  cbn [traverse_siblings flat_map]. rewrite visit_each_app.
  destruct (Hc s) as [Hc1 Hc2].
  destruct (traverse fn c s) as [c' s1]. cbn [fst snd] in *.
  destruct (IH s1) as [IH1 IH2].
  destruct (traverse_siblings fn cs s1) as [cs' s2].
  cbn [fst snd flat_map] in *.
  rewrite <- Hc1, <- IH1. rewrite !fmap_app, Hc2, IH2. done.
Qed.

(** X4: [traverse] calls the visitor once on every node, in document order
    (a node before its children, the children from first to last): the
    attributes it leaves and the final state are those of a loop over the
    pre-order list of the nodes; types and tags are not touched. *)
Theorem traverse_visits_in_document_order {S : Type}
    (fn : Node → S → list Attribute * S) n s :
  (Attr <$> flatten (traverse fn n s).1, (traverse fn n s).2)
  = visit_each fn (flatten n) s
  ∧ (λ m, (Type_ m, Data m)) <$> flatten (traverse fn n s).1
    = (λ m, (Type_ m, Data m)) <$> flatten n.
Proof.
  revert s. induction n as [ty data attr children IH] using Node_ind'.
  intros s. rewrite traverse_unfold. cbn [Type_ Data Children flatten visit_each].
  destruct (fn _ s) as [attr' s1].
  destruct (traverse_siblings_visit fn children IH s1) as [H1 H2].
  destruct (traverse_siblings fn children s1) as [children' s2].
  cbn [fst snd flatten fmap list_fmap Attr Type_ Data] in *.
  rewrite <- H1. split; [done|]. by rewrite <- H2.
Qed.

Section more_links.

Variable URL_Parse : URL → string → option URL.
Variable d : downloader.

Local Abbreviation rewriteLinks' := (rewriteLinks URL_Parse d).
Local Abbreviation collectLinks' := (collectLinks URL_Parse d).
Local Abbreviation same_host_link' := (same_host_link URL_Parse d).
Local Abbreviation link_attr' := (link_attr URL_Parse d).
Local Abbreviation node_link' := (node_link URL_Parse d).
Local Abbreviation first_link' := (first_link URL_Parse d).
Local Abbreviation link_of' := (link_of URL_Parse d).

(** The loop of the rewriter stops at the first attribute it rewrites. *)
Lemma rewrite_attrs_once base cur k attrs :
  rewrite_attrs URL_Parse d base cur k attrs = attrs
  ∨ ∃ i a abs relPath,
      attrs !! i = Some a ∧ Key a = k ∧ same_host_link' base a abs
      ∧ filepath.Rel (filepath.Dir cur) (makeLocalPath d abs) = Some relPath
      ∧ rewrite_attrs URL_Parse d base cur k attrs
        = <[i := set_Val relPath a]> attrs.
Proof.
  induction attrs as [|a attrs IH]; [by left|]. simpl.
  assert (a :: rewrite_attrs URL_Parse d base cur k attrs = a :: attrs
          ∨ ∃ i a0 abs relPath,
              (a :: attrs) !! i = Some a0 ∧ Key a0 = k
              ∧ same_host_link' base a0 abs
              ∧ filepath.Rel (filepath.Dir cur) (makeLocalPath d abs)
                = Some relPath
              ∧ a :: rewrite_attrs URL_Parse d base cur k attrs
                = <[i := set_Val relPath a0]> (a :: attrs)) as Hskip.
  { destruct IH as [->|(i & a0 & abs & relPath & Hi & Hk & Hs & Hr & ->)];
      [by left|].
    right. by exists (S i), a0, abs, relPath. }
  case_decide as Hkey; [done|].
  destruct (URL_Parse base (Val a)) as [abs|] eqn:Hparse; [|done].
  case_decide as Hhost; [done|].
  destruct (filepath.Rel _ _) as [relPath|] eqn:Hrel; [|done].
  try apply dec_stable in Hkey. try apply dec_stable in Hhost.
  right. by exists 0%nat, a, abs, relPath.
Qed.

(** X5: the rewriter changes at most one attribute value per element
    (the loop stops at the first attribute it rewrites), the new value
    being the relative path to the local file of a URL of the mirror host;
    the children are the rewritten children, in the same order. *)
Theorem rewriteLinks_one_attribute_per_element doc base cur :
  Forall2
    (λ n n',
       Children n' = (λ c, rewriteLinks' c base cur) <$> Children n
       ∧ (Attr n' = Attr n
          ∨ ∃ i a abs relPath,
              Attr n !! i = Some a ∧ same_host_link' base a abs
              ∧ filepath.Rel (filepath.Dir cur) (makeLocalPath d abs)
                = Some relPath
              ∧ Attr n' = <[i := set_Val relPath a]> (Attr n)))
    (flatten doc) (flatten (rewriteLinks' doc base cur)).
Proof.
  apply Forall2_flatten_rewriteLinks. intros n. split.
  { unfold rewriteLinks. by rewrite traverse_unit. }
  rewrite Attr_rewriteLinks. destruct (rewrite_key n) as [k|]; [|by left].
  destruct (rewrite_attrs_once base cur k (Attr n))
    as [->|(i & a & abs & relPath & Hi & _ & Hs & Hr & ->)]; [by left|].
  right. by exists i, a, abs, relPath.
Qed.

Lemma Host_inherit_scheme base abs :
  Host (inherit_scheme base abs) = Host abs.
Proof. unfold inherit_scheme. by case_decide. Qed.

Lemma Path_collected base abs : Path (collected base abs) = Path abs.
Proof. unfold collected, inherit_scheme. by case_decide. Qed.

Lemma link_of_collected base a abs :
  same_host_link' base a abs →
  Scheme (inherit_scheme base abs) = "http"
  ∨ Scheme (inherit_scheme base abs) = "https" →
  link_of' base a = Some (collected base abs).
Proof.
  intros [Hp Hh] Hs. unfold link_of. rewrite Hp.
  fold (inherit_scheme base abs). rewrite Host_inherit_scheme.
  by rewrite decide_True.
Qed.

Lemma link_of_foreign base b :
  (∀ abs', ¬ same_host_link' base b abs') → link_of' base b = None.
Proof.
  intros Hno. unfold link_of.
  destruct (URL_Parse base (Val b)) as [abs'|] eqn:Hp; [|done].
  fold (inherit_scheme base abs'). rewrite Host_inherit_scheme.
  rewrite decide_False; [done|]. intros [Hh _]. by apply (Hno abs').
Qed.

Lemma first_link_collected base k attrs i a abs :
  attrs !! i = Some a → Key a = k → same_host_link' base a abs →
  (∀ j b abs', (j < i)%nat → attrs !! j = Some b → Key b = k →
               ¬ same_host_link' base b abs') →
  Scheme (inherit_scheme base abs) = "http"
  ∨ Scheme (inherit_scheme base abs) = "https" →
  first_link' base k attrs = Some (collected base abs).
Proof.
  intros Hi Hk Hsame Hfirst Hs. unfold first_link.
  revert i Hi Hfirst. induction attrs as [|b attrs IH]; intros i Hi Hfirst;
    [done|].
  destruct i as [|i]; simpl in Hi.
  - simplify_eq. cbn [omap list_omap]. rewrite decide_True by done.
    by rewrite (link_of_collected base a abs).
  - cbn [omap list_omap].
    assert ((if decide (Key b = k) then link_of' base b else None) = None)
      as ->.
    { case_decide as Hb; [|done]. apply link_of_foreign.
      intros abs'. apply (Hfirst 0%nat b abs'); [lia|done|done]. }
    apply (IH i Hi). intros j b' abs' Hj Hb'.
    apply (Hfirst (S j) b' abs'); [lia|done].
Qed.

Lemma node_link_collected base n i a abs :
  link_attr' base n i a abs →
  Scheme (inherit_scheme base abs) = "http"
  ∨ Scheme (inherit_scheme base abs) = "https" →
  ∃ isPageLink, node_link' base n = Some (isPageLink, collected base abs).
Proof.
  intros (k & Hk & Hi & Hkey & Hsame & Hfirst) Hs.
  pose proof (first_link_collected base k (Attr n) i a abs
                Hi Hkey Hsame Hfirst Hs) as Hl.
  unfold rewrite_key in Hk. unfold node_link.
  case_decide as Hty; [|done].
  destruct (decide (Data n = "a")) as [Ha|Ha].
  { rewrite decide_True in Hk by auto. injection Hk as <-.
    rewrite Hl. by eexists. }
  destruct (decide (Data n = "link")) as [Hli|Hli].
  { rewrite decide_True in Hk by auto. injection Hk as <-.
    rewrite Hl. by eexists. }
  rewrite decide_False in Hk by (intros [?|?]; done).
  case_decide; [|done]. injection Hk as <-. rewrite Hl. by eexists.
Qed.

(** X6: the classifier and the rewriter agree. When the link attribute of
    an element resolves to an http or https URL of the mirror host (the
    base scheme standing in for a missing one), that URL without its
    fragment is among the links [collectLinks] returns for the document,
    and the rewritten attribute leads to the local path under which the
    download of that link is stored. *)
Theorem rewritten_links_are_collected doc base :
  rootDir d ≠ "" → filepath.slashed (rootDir d) = false →
  url_path_ok base →
  Forall2
    (λ n n',
       ∀ i a abs,
         link_attr' base n i a abs → url_path_ok abs →
         Scheme (inherit_scheme base abs) = "http"
         ∨ Scheme (inherit_scheme base abs) = "https" →
         collected base abs
         ∈ (collectLinks' doc base).1 ++ (collectLinks' doc base).2
         ∧ ∃ a', Attr n' !! i = Some a'
                 ∧ filepath.Join
                     [filepath.Dir (makeLocalPath d base); Val a']
                   = makeLocalPath d (collected base abs))
    (flatten doc) (flatten (rewriteLinks' doc base (makeLocalPath d base))).
Proof.
  intros Hne Hroot Hbase. rewrite flatten_rewriteLinks.
  apply Forall2_fmap_r, Forall_Forall2_diag, Forall_forall.
  intros n Hn i a abs Hlink Habs Hs. split.
  - destruct (node_link_collected base n i a abs Hlink Hs) as [b Hnl].
    rewrite collectLinks_eq. apply elem_of_app. destruct b.
    + right. apply list_elem_of_omap. exists n. split; [done|].
      unfold page_of. by rewrite Hnl.
    + left. apply list_elem_of_omap. exists n. split; [done|].
      unfold resource_of. by rewrite Hnl.
  - destruct (rewrite_link_attr URL_Parse d base n i a abs
                Hne Hroot Hbase Habs Hlink) as (relPath & _ & Hjoin & Hattr).
    exists (set_Val relPath a). split; [done|].
    cbn [Val set_Val]. rewrite Hjoin. unfold makeLocalPath.
    by rewrite Path_collected.
Qed.

End more_links.

(** * Further properties of the run *)

Lemma running_upd (ts news : list Task) pc' i t :
  ts !! i = Some t → Forall (λ n, t_pc n = PStart) news →
  (sum_list_with (λ t, if returned (t_pc t) then 0 else 1)
                 (alter (set_task_pc pc') i ts ++ news)
   + (if returned (t_pc t) then 0 else 1)
   = sum_list_with (λ t, if returned (t_pc t) then 0 else 1) ts
     + (if returned pc' then 0 else 1) + length news)%nat.
Proof.
  intros Hi Hnews. rewrite sum_list_with_app.
  assert (sum_list_with (λ t, if returned (t_pc t) then 0%nat else 1%nat) news
          = length news) as ->.
  { induction Hnews as [|n news Hn _ IH]; [done|]. simpl. by rewrite Hn, IH. }
  revert i Hi. induction ts as [|x ts IH]; intros i Hi; [done|].
  destruct i as [|i]; simpl in *.
  - simplify_eq. destruct (returned (t_pc t)), (returned pc'); lia.
  - specialize (IH i Hi).
    change (alter ?f ?k ?l) with (list_alter f k l) in IH.
    destruct (returned (t_pc t)), (returned pc'), (returned (t_pc x));
      lia.
Qed.

Lemma in_flight_pos s i t :
  tasks s !! i = Some t → holds_slot (t_pc t) = true → (0 < in_flight s)%nat.
Proof.
  unfold in_flight. generalize (tasks s). intros ts. revert i.
  induction ts as [|x ts IH]; intros i Hi Hh; [done|].
  destruct i as [|i]; simpl in *.
  - simplify_eq. rewrite Hh. lia.
  - specialize (IH i Hi Hh). lia.
Qed.

Lemma in_flight_holder s :
  (0 < in_flight s)%nat →
  ∃ i t, tasks s !! i = Some t ∧ holds_slot (t_pc t) = true.
Proof.
  unfold in_flight. generalize (tasks s). intros ts.
  induction ts as [|x ts IH]; simpl; [lia|].
  destruct (holds_slot (t_pc x)) eqn:Hx.
  - intros _. by exists 0%nat, x.
  - intros H. destruct IH as (i & t & Hi & Ht); [lia|]. by exists (S i), t.
Qed.

Lemma running_zero s :
  running s = 0%nat ↔ ∀ t, t ∈ tasks s → returned (t_pc t) = true.
Proof.
  unfold running. generalize (tasks s). intros ts.
  induction ts as [|x ts IH]; simpl.
  - split; [|done]. intros _ t Ht. by apply elem_of_nil in Ht.
  - split.
    + intros H t [->|Ht]%elem_of_cons.
      * destruct (returned (t_pc x)); [done|lia].
      * apply IH; [|done]. lia.
    + intros H. rewrite (H x) by (apply elem_of_cons; auto).
      apply IH. intros t Ht. apply H, elem_of_cons. auto.
Qed.

Ltac effect_cases Hmove Hpc :=
  unfold move, same_shared in Hmove;
  match type of Hmove with
  | match t_pc ?t with _ => _ end => destruct (t_pc t) eqn:Hpc
  end;
  repeat match type of Hmove with
         | match ?x with _ => _ end => destruct x
         end;
  try (exfalso; exact Hmove);
  destruct_and?;
  repeat match goal with
         | H : ?o' = ?o |- _ => is_var o'; is_var o; subst o'
         end.

Ltac effect_tasks Hj Hi :=
  apply (lookup_upd _ _ _ _ _ _ _ Hi) in Hj
    as [[-> ->]|[[? Hj]|(? & ? & Hj)]].

Section more_run.

Variable URL_Parse : URL → string → option URL.
Variable d : downloader.
Variable client_Get : nat → string → GetResult.
Variable html_Parse : string → option Node.
Variable MkdirAll_ok Create_ok : string → bool.

Local Abbreviation step_task' :=
  (step_task URL_Parse d client_Get html_Parse MkdirAll_ok Create_ok).
Local Abbreviation step' :=
  (step URL_Parse d client_Get html_Parse MkdirAll_ok Create_ok).
Local Abbreviation handle' :=
  (handle URL_Parse d html_Parse MkdirAll_ok Create_ok).
Local Abbreviation stored' :=
  (stored URL_Parse d html_Parse MkdirAll_ok Create_ok).
Local Abbreviation saved_from' :=
  (saved_from URL_Parse d client_Get html_Parse MkdirAll_ok Create_ok).
Local Abbreviation Books' :=
  (Books URL_Parse d client_Get html_Parse MkdirAll_ok Create_ok).
Local Abbreviation Inv' := (Inv d).
Local Abbreviation move' := (move d).
Local Abbreviation spawned_by' := (spawned_by d).

(** The tasks an HTML page starts, and what it saves. *)
Lemma handle_page i t r s rsp doc :
  r = mkGetResult (Some rsp) None → StatusCode rsp = 200 →
  MkdirAll_ok (filepath.Dir (makeLocalPath d (t_url t))) = true →
  strings.Contains (ContentType rsp) "text/html" = true →
  html_Parse (Body rsp) = Some doc →
  let localPath := makeLocalPath d (t_url t) in
  let links := collectLinks URL_Parse d doc (t_url t) in
  let news := started links.1 (t_depth t)
              ++ started links.2 (int_add (t_depth t) 1) in
  handle' i t r s
  = mkState (visited s) (visitedMu s) (sem s)
      (wg s + Z.of_nat (length news))
      (alter (set_task_pc
                (PRelease (if Create_ok localPath then Done else Errored)))
             i (tasks s ++ news))
      (fetched s)
      (if Create_ok localPath
       then (localPath,
             Rendered (rewriteLinks URL_Parse d doc (t_url t) localPath))
            :: saved s
       else saved s)
      (panicked s).
Proof.
  intros -> H200 Hmk Hct Hdoc. cbn zeta. unfold handle. cbn [resp err].
  rewrite decide_False by (by intros []).
  rewrite decide_False by (by intros []).
  rewrite Hmk, Hct, Hdoc. cbn [negb].
  destruct (collectLinks _ _ _ _) as [resources pages]. cbn [fst snd].
  rewrite spawn_all_eq. unfold saveHTML.
  destruct (Create_ok _); rewrite spawn_all_eq; unfold set_pc, started;
    cbn; rewrite length_app, !length_fmap, <- app_assoc;
    f_equal; lia.
Qed.

Lemma handle_effect i t r s :
  tasks s !! i = Some t →
  (resp r = None ∧ handle' i t r s = panic s)
  ∨ ∃ o news,
      fetch_outcome o = true ∧ Forall (spawned_by' t) news
      ∧ tasks (handle' i t r s) = upd i (PRelease o) news (tasks s)
      ∧ panicked (handle' i t r s) = panicked s
      ∧ same_shared s (handle' i t r s)
      ∧ wg (handle' i t r s) = wg s + Z.of_nat (length news)
      ∧ (saved (handle' i t r s) = saved s
         ∨ ∃ rsp c,
             r = mkGetResult (Some rsp) None
             ∧ stored' (t_url t) rsp (makeLocalPath d (t_url t)) c
             ∧ saved (handle' i t r s)
               = (makeLocalPath d (t_url t), c) :: saved s).
Proof.
  intros Hi. pose proof (lookup_lt_Some _ _ _ Hi) as Hlt.
  destruct r as [[rsp|] e]; [right|by left].
  assert (∀ o, fetch_outcome o = true →
    ∃ o' news, fetch_outcome o' = true ∧ Forall (spawned_by' t) news
      ∧ tasks (set_pc i (PRelease o) s) = upd i (PRelease o') news (tasks s)
      ∧ panicked (set_pc i (PRelease o) s) = panicked s
      ∧ same_shared s (set_pc i (PRelease o) s)
      ∧ wg (set_pc i (PRelease o) s) = wg s + Z.of_nat (length news)
      ∧ (saved (set_pc i (PRelease o) s) = saved s
         ∨ ∃ rsp' c,
             mkGetResult (Some rsp) e = mkGetResult (Some rsp') None
             ∧ stored' (t_url t) rsp' (makeLocalPath d (t_url t)) c
             ∧ saved (set_pc i (PRelease o) s)
               = (makeLocalPath d (t_url t), c) :: saved s)) as Hsimple.
  { intros o Ho. exists o, []. unfold upd. rewrite app_nil_r. cbn.
    repeat split; try done; [lia|by left]. }
  unfold handle. cbn [resp err].
  case_decide as He; [by apply Hsimple|]. try apply dec_stable in He. subst e.
  case_decide as H200; [by apply Hsimple|]. try apply dec_stable in H200.
  destruct (MkdirAll_ok _) eqn:Hmk; cbn [negb]; [|by apply Hsimple].
  destruct (strings.Contains _ _) eqn:Hct; cbn [negb].
  - destruct (html_Parse _) as [doc|] eqn:Hdoc; [|by apply Hsimple].
    pose proof (handle_page i t _ s rsp doc eq_refl H200 Hmk Hct Hdoc) as Hp.
    cbn zeta in Hp. unfold handle in Hp. cbn [resp err] in Hp.
    rewrite decide_False in Hp by (by intros []).
    rewrite decide_False in Hp by (by intros []).
    rewrite Hmk, Hct, Hdoc in Hp. cbn [negb] in Hp. rewrite Hp. clear Hp.
    pose proof (collectLinks_kept URL_Parse d doc (t_url t)) as Hkept.
    destruct (collectLinks _ _ _ _) as [resources pages].
    cbn [fst snd] in *. apply Forall_app in Hkept as [Hres Hpages].
    set (news := started resources (t_depth t)
                 ++ started pages (int_add (t_depth t) 1)).
    exists (if Create_ok (makeLocalPath d (t_url t)) then Done else Errored),
           news.
    split; [by destruct (Create_ok _)|]. split.
    { apply Forall_app. split; apply Forall_forall;
        intros n (u & -> & Hu)%list_elem_of_fmap;
        (split; [done|]); (split; [auto|]); cbn.
      - by eapply (proj1 (Forall_forall _ _) Hres).
      - by eapply (proj1 (Forall_forall _ _) Hpages). }
    cbn. split; [by apply alter_app_l|]. repeat (split; [done|]).
    destruct (Create_ok _) eqn:Hc; [right|by left].
    eexists rsp, _. split; [done|]. split; [|done].
    repeat (split; [done|]). rewrite Hct. by exists doc.
  - unfold saveNonHTML. destruct (Create_ok _) eqn:Hc; [|by apply Hsimple].
    exists Done, []. unfold upd. rewrite app_nil_r. cbn.
    repeat split; try done; [lia|]. right.
    eexists rsp, _. split; [done|]. split; [|done].
    repeat (split; [done|]). by rewrite Hct.
Qed.

Lemma step_task_effect i s s' :
  step_task' i s = Some s' →
  ∃ t, tasks s !! i = Some t ∧ panicked s = false
       ∧ returned (t_pc t) = false
       ∧ ((∃ r, t_pc t = PHandle r ∧ resp r = None ∧ s' = panic s)
          ∨ ∃ pc' news,
              tasks s' = upd i pc' news (tasks s)
              ∧ Forall (spawned_by' t) news
              ∧ (news = [] ∨ ∃ r, t_pc t = PHandle r)
              ∧ panicked s' = false
              ∧ move' i t s pc' s'
              ∧ wg s' = wg s + Z.of_nat (length news)
                        - (if returned pc' then 1 else 0)
              ∧ (t_pc t = PGet →
                 pc' = PHandle (client_Get (length (fetched s)) (urlStr t)))
              ∧ (saved s' = saved s
                 ∨ ∃ rsp c,
                     t_pc t = PHandle (mkGetResult (Some rsp) None)
                     ∧ stored' (t_url t) rsp (makeLocalPath d (t_url t)) c
                     ∧ saved s'
                       = (makeLocalPath d (t_url t), c) :: saved s)).
Proof.
  unfold step_task. destruct (panicked s) eqn:Hp; [done|].
  destruct (tasks s !! i) as [t|] eqn:Hi; [|done].
  intros H. exists t. split; [done|]. split; [done|].
  assert (∀ pc', alter (set_task_pc pc') i (tasks s)
                 = upd i pc' [] (tasks s)) as Hupd
    by (intros; unfold upd; by rewrite app_nil_r).
  unfold move.
  destruct (t_pc t) eqn:Hpc; (split; [try done|]).
  - case_decide; simplify_eq; right; eexists _, [];
      (split; [apply Hupd|]); cbn; repeat split; auto; try done; try lia.
  - destruct (visitedMu s) eqn:Hmu; simplify_eq. right.
    eexists _, []. (split; [apply Hupd|]). cbn. repeat split; auto; try done; try lia.
  - destruct (default false _) eqn:Hv; simplify_eq; right; eexists _, [];
      (split; [apply Hupd|]); cbn; repeat split; auto; try done; try lia.
  - simplify_eq. right. eexists _, [].
    (split; [apply Hupd|]). cbn. repeat split; auto; try done; try lia.
  - simplify_eq. right. eexists _, [].
    (split; [apply Hupd|]). cbn. repeat split; auto; try done; try lia.
  - simplify_eq. right. eexists _, [].
    (split; [apply Hupd|]). cbn. repeat split; auto; try done; try lia.
  - case_decide; simplify_eq. right. eexists _, [].
    (split; [apply Hupd|]). cbn. repeat split; auto; try done; try lia.
  - simplify_eq. right. eexists _, [].
    (split; [apply Hupd|]). cbn. repeat split; auto; try done; try lia.
  - simplify_eq.
    destruct (handle_effect i t r s Hi)
      as [[Hr ->]|(o & news & Ho & Hn & Ht & Hpan & Hsame & Hwg & Hsv)].
    + left. eauto.
    + right. exists (PRelease o), news. rewrite Hpan.
      repeat (split; [done|]). split; [eauto|].
      repeat (split; [done|]). split; [cbn; lia|]. split; [done|].
      destruct Hsv as [?|(rsp & c & -> & ? & ?)]; [by left|right; eauto].
  - destruct (sem s) eqn:Hsem; simplify_eq. right. eexists _, [].
    (split; [apply Hupd|]). cbn. repeat split; auto; try done; try lia.
  - done.
Qed.

(** The history of calls grows at its end. *)
Lemma fetched_prefix i t s pc' s' k f :
  move' i t s pc' s' → fetched s !! k = Some f → fetched s' !! k = Some f.
Proof.
  intros Hmove Hk. effect_cases Hmove Hpc;
    repeat match goal with
           | H : fetched ?x = _ |- context [fetched ?x] => rewrite H
           end; try done.
  by apply lookup_app_l_Some.
Qed.

Lemma saved_from_step i t s pc' news s' path c :
  tasks s !! i = Some t → tasks s' = upd i pc' news (tasks s) →
  move' i t s pc' s' →
  saved_from' s path c → saved_from' s' path c.
Proof.
  intros Hi Ht Hmove (k & f & tf & rsp & Hk & Hf & Hu & Hget & Hst).
  destruct (decide (f_task f = i)) as [Hfi|Hfi].
  - rewrite Hfi in Hf. simplify_eq.
    exists k, f, (set_task_pc pc' t), rsp.
    split; [by eapply fetched_prefix|].
    split; [rewrite Ht; by apply upd_lookup_same|]. done.
  - exists k, f, tf, rsp.
    split; [by eapply fetched_prefix|].
    split; [rewrite Ht; by apply upd_lookup_other|]. done.
Qed.

Lemma Books_init base : Books' (go_download base 0 empty_state).
Proof.
  split; cbn.
  - done.
  - done.
  - by intros i t r [-> <-]%list_lookup_singleton_Some.
  - intros path c H. by apply elem_of_nil in H.
Qed.

Lemma Books_panic s : Books' s → Books' (panic s).
Proof. intros []. by split. Qed.

Lemma Books_step s s' : Books' s → step' s s' → Books' s'.
Proof.
  intros HB [i Hstep].
  apply step_task_effect in Hstep
    as (t & Hi & Hp & Hret
        & [(r & _ & _ & ->)
          |(pc' & news & Ht & Hnews & _ & Hp' & Hmove & Hwg & Hget & Hsv)]);
    [by apply Books_panic|].
  assert (Forall (λ n, t_pc n = PStart) news) as Hstart.
  { eapply Forall_impl; [exact Hnews|]. by intros n [? _]. }
  split.
  - (* the holder of the mutex *)
    intros j Hmu.
    assert (visitedMu s = Some j →
            ∃ tj, tasks s' !! j = Some tj ∧ in_critical (t_pc tj) = true)
      as Hold.
    { intros Hmus.
      destruct (books_holder _ _ _ _ _ _ _ HB j Hmus) as (tj & Hj & Hc).
      destruct (decide (j = i)) as [->|Hne].
      - simplify_eq. exists (set_task_pc pc' t). rewrite Ht.
        split; [by apply upd_lookup_same|]. cbn.
        effect_cases Hmove Hpc; try done; congruence.
      - exists tj. rewrite Ht. split; [by apply upd_lookup_other|done]. }
    effect_cases Hmove Hpc;
      try (apply Hold; congruence); try congruence.
    assert (j = i) as -> by congruence.
    eexists. rewrite Ht. split; [by apply upd_lookup_same|done].
  - (* the wait group counts the goroutines that have not returned *)
    pose proof (books_wg _ _ _ _ _ _ _ HB) as Hw.
    pose proof (running_upd (tasks s) news pc' i t Hi Hstart) as Hsum.
    rewrite Hret in Hsum. unfold running in *. rewrite Ht. unfold upd.
    destruct (returned pc'); lia.
  - (* the result at hand is the result of the goroutine's call *)
    intros j tj r Hj Hpcj. rewrite Ht in Hj. unfold upd in Hj.
    effect_tasks Hj Hi.
    + cbn in Hpcj. subst pc'. cbn [urlStr t_url t_depth set_task_pc].
      fold (urlStr t).
      effect_cases Hmove Hpc. specialize (Hget eq_refl).
      injection Hget as ->. exists (length (fetched s)). split; [|done].
      match goal with H : fetched s' = _ |- _ => rewrite H end.
      by rewrite list_lookup_middle.
    + destruct (books_handle _ _ _ _ _ _ _ HB j tj r Hj Hpcj) as (k & Hk & ->).
      exists k. split; [|done]. by eapply fetched_prefix.
    + eapply Forall_forall in Hstart; [|done]. congruence.
  - (* the files *)
    intros path c Hin.
    destruct Hsv as [Hsv|(rsp & c' & Hpc & Hst & Hsv)]; rewrite Hsv in Hin.
    + eapply saved_from_step; try done.
      by apply (books_saved _ _ _ _ _ _ _ HB).
    + apply elem_of_cons in Hin as [[= -> ->]|Hin].
      * destruct (books_handle _ _ _ _ _ _ _ HB i t _ Hi Hpc)
          as (k & Hk & Hr).
        exists k, (mkFetch i (urlStr t) (t_depth t)), (set_task_pc pc' t), rsp.
        split; [by eapply fetched_prefix|].
        split; [rewrite Ht; by apply upd_lookup_same|]. done.
      * eapply saved_from_step; try done.
        by apply (books_saved _ _ _ _ _ _ _ HB).
Qed.

Lemma Books_run s0 s : Books' s0 → rtc step' s0 s → Books' s.
Proof. induction 2; eauto using Books_step. Qed.

(** When a goroutine can act. *)
Lemma step_task_enabled i t s :
  panicked s = false → tasks s !! i = Some t →
  match t_pc t with
  | PLock => visitedMu s = None
  | PAcquire => Z.of_nat (sem s) < concurrencyLimit d
  | PRelease _ => sem s ≠ 0%nat
  | PDone _ => False
  | _ => True
  end →
  ∃ s', step' s s'.
Proof.
  intros Hp Hi Hen.
  assert (is_Some (step_task' i s)) as [s' Hs]; [|by exists s', i].
  unfold step_task. rewrite Hp, Hi.
  destruct (t_pc t) eqn:Hpc; try done.
  - by case_decide.
  - by rewrite Hen.
  - by destruct (default false _).
  - by rewrite decide_True.
  - by destruct (sem s).
Qed.

Lemma reachable_Inv base s :
  rtc step' (go_download base 0 empty_state) s → Inv' s.
Proof. apply Inv_run, Inv_init. Qed.

Lemma reachable_Books base s :
  rtc step' (go_download base 0 empty_state) s → Books' s.
Proof. apply Books_run, Books_init. Qed.


(** X8: in every state of a run the counter of [d.wg] is the number of
    goroutines that have not returned; it is never negative, and it is 0,
    so that [d.wg.Wait()] in [main] returns, exactly when every goroutine
    has returned. *)
Theorem wait_group_counts_running base s :
  rtc step' (go_download base 0 empty_state) s →
  wg s = Z.of_nat (running s)
  ∧ (wg s = 0 ↔ ∀ t, t ∈ tasks s → returned (t_pc t) = true).
Proof.
  intros Hrun. pose proof (reachable_Books base s Hrun) as HB.
  pose proof (books_wg _ _ _ _ _ _ _ HB) as Hw. split; [done|].
  rewrite <- running_zero. lia.
Qed.

(** X9: [visitedMu] is held only by a goroutine between its [Lock] and
    its [Unlock]; no goroutine returns with the mutex or with a slot of
    the channel: once all have returned the mutex is free and the channel
    is empty. *)
Theorem returned_goroutines_hold_nothing base s :
  rtc step' (go_download base 0 empty_state) s →
  (∀ i, visitedMu s = Some i →
        ∃ t, tasks s !! i = Some t ∧ in_critical (t_pc t) = true)
  ∧ ((∀ t, t ∈ tasks s → returned (t_pc t) = true) →
     visitedMu s = None ∧ sem s = 0%nat).
Proof.
  intros Hrun. pose proof (reachable_Books base s Hrun) as HB.
  pose proof (reachable_Inv base s Hrun) as HI.
  split; [apply (books_holder _ _ _ _ _ _ _ HB)|].
  intros Hall. split.
  - destruct (visitedMu s) as [i|] eqn:Hmu; [|done].
    destruct (books_holder _ _ _ _ _ _ _ HB i Hmu) as (t & Hi & Hc).
    apply list_elem_of_lookup_2, Hall in Hi. by destruct (t_pc t).
  - rewrite (inv_sem d s HI).
    destruct (in_flight s) eqn:Hn; [done|].
    destruct (in_flight_holder s) as (i & t & Hi & Hh); [lia|].
    apply list_elem_of_lookup_2, Hall in Hi. by destruct (t_pc t).
Qed.

(** X10: with a positive concurrency limit the goroutines never block
    each other for good: in every state of a run without panic in which
    some goroutine has not returned, some goroutine can act (every call
    of [client.Get] returning). *)
Theorem run_never_deadlocks base s :
  rtc step' (go_download base 0 empty_state) s →
  0 < concurrencyLimit d → panicked s = false →
  (∃ t, t ∈ tasks s ∧ returned (t_pc t) = false) →
  ∃ s', step' s s'.
Proof.
  intros Hrun Hlimit Hp (t & [i Hi]%list_elem_of_lookup & Hret).
  pose proof (reachable_Books base s Hrun) as HB.
  pose proof (reachable_Inv base s Hrun) as HI.
  destruct (visitedMu s) as [j|] eqn:Hmu.
  { (* the holder of the mutex can go on *)
    destruct (books_holder _ _ _ _ _ _ _ HB j Hmu) as (tj & Hj & Hc).
    apply (step_task_enabled j tj s Hp Hj). by destruct (t_pc tj). }
  assert (∀ j tj, tasks s !! j = Some tj → holds_slot (t_pc tj) = true →
                  ∃ s', step' s s') as Hslot.
  { (* so can a goroutine that holds a slot *)
    intros j tj Hj Hh. apply (step_task_enabled j tj s Hp Hj).
    pose proof (in_flight_pos s j tj Hj Hh) as Hpos.
    rewrite <- (inv_sem d s HI) in Hpos.
    destruct (t_pc tj); try done. lia. }
  destruct (t_pc t) eqn:Hpc.
  all: try (apply (step_task_enabled i t s Hp Hi); by rewrite Hpc).
  - destruct (decide (Z.of_nat (sem s) < concurrencyLimit d)) as [Hfree|Hfull].
    + apply (step_task_enabled i t s Hp Hi). by rewrite Hpc.
    + (* the channel is full: some goroutine holds a slot *)
      destruct (in_flight_holder s) as (j & tj & Hj & Hhj);
        [rewrite <- (inv_sem d s HI); lia|].
      by eapply Hslot.
  - eapply Hslot; [exact Hi|by rewrite Hpc].
Qed.

(** X11: with a depth limit below the largest [int], every task of a run
    has a depth between 0 and one above the depth limit: [depth+1] never
    wraps around, and tasks are started at most one level too deep. *)
Theorem task_depths_bounded base s :
  maxDepth d < 2 ^ 63 - 1 →
  rtc step' (go_download base 0 empty_state) s →
  ∀ t, t ∈ tasks s → 0 ≤ t_depth t ≤ Z.max 0 (maxDepth d + 1).
Proof.
  intros Hmax. revert s.
  apply (rtc_ind_r (λ s, ∀ t, t ∈ tasks s →
                          0 ≤ t_depth t ≤ Z.max 0 (maxDepth d + 1))).
  { intros t ->%list_elem_of_singleton. cbn. lia. }
  intros s1 s2 Hrun1 [i Hstep] IH.
  pose proof (reachable_Inv base s1 Hrun1) as HI.
  apply step_task_effect in Hstep
    as (t & Hi & Hp & Hret
        & [(r & _ & _ & ->)
          |(pc' & news & Ht & Hnews & Hwhen & _ & Hmove & _)]); [done|].
  intros n [j Hj]%list_elem_of_lookup. rewrite Ht in Hj. unfold upd in Hj.
  pose proof (IH t (list_elem_of_lookup_2 _ _ _ Hi)) as Hbt.
  effect_tasks Hj Hi.
  - done.
  - by apply list_elem_of_lookup_2, IH in Hj.
  - destruct Hwhen as [->|[r Hpc]]; [by apply elem_of_nil in Hj|].
    eapply Forall_forall in Hnews; [|done].
    destruct Hnews as (_ & Hdepth & _).
    assert (t_depth t ≤ maxDepth d) as Hle
      by (apply (inv_depth d s1 HI i t Hi); by rewrite Hpc).
    destruct Hdepth as [->| ->]; [lia|].
    unfold int_add, int_wrap. rewrite Z.mod_small; lia.
Qed.

(** X12: every file a run writes comes from one of its calls of
    [client.Get]: the call of a task with the file's path as local path,
    answered without error by a 200 response, after [MkdirAll] and
    [Create] succeeded; the file holds the body as it is when the content
    type is not [text/html], and the parsed body with its links rewritten
    when it is. *)
Theorem saved_files_come_from_fetches base s path c :
  rtc step' (go_download base 0 empty_state) s →
  (path, c) ∈ saved s → saved_from' s path c.
Proof.
  intros Hrun. apply (books_saved _ _ _ _ _ _ _ (reachable_Books base s Hrun)).
Qed.

(** X13: a URL is recorded in [visited] before it is requested: every
    URL passed to [client.Get] is a key of [visited] with value [true];
    and every key of [visited] has value [true] and is the URL of a task
    within the depth bound whose goroutine recorded it. *)
Theorem fetched_urls_are_visited base s :
  rtc step' (go_download base 0 empty_state) s →
  (∀ f, f ∈ fetched s → visited s !! f_url f = Some true)
  ∧ (∀ x, is_Some (visited s !! x) →
          visited s !! x = Some true
          ∧ ∃ t, t ∈ tasks s ∧ urlStr t = x ∧ won (t_pc t) = true
                 ∧ t_depth t ≤ maxDepth d).
Proof.
  intros Hrun. pose proof (reachable_Inv base s Hrun) as HI. split.
  - intros f Hf.
    destruct (inv_fetched d s HI f Hf) as (t & Ht & Hw & -> & _).
    apply (inv_won d s HI _ _ Ht).
    by destruct (t_pc t) as [| | | | | | | | |[]|[]].
  - intros x Hx. split.
    { destruct Hx as [v Hv]. by rewrite (inv_true d s HI x v Hv) in Hv. }
    destruct (inv_claimed d s HI x Hx) as (i & t & Hi & Hw & Hu).
    exists t. split; [by eapply list_elem_of_lookup_2|].
    repeat (split; [done|]). apply (inv_depth d s HI i t Hi).
    by destruct (t_pc t) as [| | | | | | | | |[]|[]].
Qed.

(** X14: a run only adds: from any state on, the keys of [visited] stay,
    the calls made stay the first calls, the files written stay below the
    newer ones, and every goroutine keeps its URL and its depth. *)
Theorem run_only_adds s s' :
  rtc (step URL_Parse d client_Get html_Parse MkdirAll_ok Create_ok) s s' →
  (∀ x, is_Some (visited s !! x) → is_Some (visited s' !! x))
  ∧ fetched s `prefix_of` fetched s'
  ∧ saved s `suffix_of` saved s'
  ∧ ∀ i t, tasks s !! i = Some t →
           ∃ t', tasks s' !! i = Some t'
                 ∧ t_url t' = t_url t ∧ t_depth t' = t_depth t.
Proof.
  induction 1 as [s|s1 s2 s3 [i Hstep] _ IH].
  { repeat split; try done. eauto. }
  destruct IH as (IHv & IHf & IHs & IHt).
  apply step_task_effect in Hstep
    as (t & Hi & Hp & Hret
        & [(r & _ & _ & ->)
          |(pc' & news & Ht & Hnews & Hwhen & _ & Hmove & _ & _ & Hsv)]);
    [done|].
  split; [|split; [|split]].
  - intros x Hx. apply IHv.
    effect_cases Hmove Hpc;
      repeat match goal with
             | H : visited ?y = _ |- context [visited ?y] => rewrite H
             end; try done.
    rewrite lookup_insert. by case_decide.
  - etrans; [|exact IHf].
    effect_cases Hmove Hpc;
      repeat match goal with
             | H : fetched ?y = _ |- context [fetched ?y] => rewrite H
             end; try done.
    by apply prefix_app_r.
  - etrans; [|exact IHs].
    destruct Hsv as [->|(rsp & c & _ & _ & ->)]; [done|].
    by apply suffix_cons_r.
  - intros j tj Hj.
    destruct (decide (j = i)) as [->|Hne].
    + simplify_eq.
      destruct (IHt i (set_task_pc pc' t)) as (t' & Ht' & Hu & Hd).
      { rewrite Ht. by apply upd_lookup_same. }
      by exists t'.
    + apply IHt. rewrite Ht. by apply upd_lookup_other.
Qed.

End more_run.

(** * Further properties of the program as [main] runs it *)

Lemma main_start_inv url_Parse MkdirAll_ok startURL conLimit depthLimit d s0 :
  main_start url_Parse MkdirAll_ok startURL conLimit depthLimit = Some (d, s0) →
  ∃ base, s0 = go_download base 0 empty_state
          ∧ Host base = host d ∧ rootDir d = host d ∧ Scheme base ≠ ""
          ∧ maxDepth d = depthLimit ∧ concurrencyLimit d = conLimit
          ∧ 0 ≤ conLimit ∧ startURL ≠ ""
          ∧ MkdirAll_ok (rootDir d) = true.
Proof.
  unfold main_start. intros Hmain.
  repeat case_decide; try done.
  destruct (url_Parse startURL) as [base|]; [|done].
  destruct (MkdirAll_ok _) eqn:Hmk; [|done]. cbn in Hmain.
  injection Hmain as <- <-. eexists. split; [done|]. cbn.
  repeat split; try done; try lia.
  all: by case_decide.
Qed.


(** X16: with a negative depth limit ([-d -1]) the first goroutine
    returns at the depth check and that is the whole run: nothing is
    recorded, requested or written. *)
Theorem negative_depth_fetches_nothing url_Parse URL_Parse client_Get
    html_Parse MkdirAll_ok Create_ok startURL conLimit depthLimit d s0 s :
  main_start url_Parse MkdirAll_ok startURL conLimit depthLimit = Some (d, s0) →
  depthLimit < 0 →
  rtc (step URL_Parse d client_Get html_Parse MkdirAll_ok Create_ok) s0 s →
  (s = s0 ∨ s = finish 0 Skipped s0)
  ∧ visited s = ∅ ∧ fetched s = [] ∧ saved s = [].
Proof.
  intros (base & -> & _ & _ & _ & Hd & _)%main_start_inv Hneg Hrun.
  assert (s = go_download base 0 empty_state
          ∨ s = finish 0 Skipped (go_download base 0 empty_state)) as Hs.
  { revert s Hrun. apply rtc_ind_r; [by left|].
    intros s1 s2 _ [i Hstep] [->| ->]; unfold step_task in Hstep; cbn in Hstep.
    - destruct i as [|i]; [|done]. cbn in Hstep.
      rewrite decide_True in Hstep by lia. right. congruence.
    - by destruct i as [|i]. }
  split; [done|]. by destruct Hs as [->| ->].
Qed.

(** X17: with concurrency limit 0 ([-n 0]) the channel has no room: no
    goroutine gets past the send, nothing is requested or written, no task
    is added, and the first goroutine never returns. *)
Theorem zero_limit_fetches_nothing url_Parse URL_Parse client_Get
    html_Parse MkdirAll_ok Create_ok startURL depthLimit d s0 s :
  main_start url_Parse MkdirAll_ok startURL 0 depthLimit = Some (d, s0) →
  0 ≤ depthLimit →
  rtc (step URL_Parse d client_Get html_Parse MkdirAll_ok Create_ok) s0 s →
  fetched s = [] ∧ saved s = []
  ∧ ∃ t, tasks s = [t] ∧ returned (t_pc t) = false.
Proof.
  intros (base & -> & _ & _ & _ & Hd & Hn & _)%main_start_inv Hpos Hrun.
  assert (fetched s = [] ∧ saved s = []
          ∧ ∃ t, tasks s = [t] ∧ t_depth t = 0 ∧ returned (t_pc t) = false)
    as (? & ? & t & ? & _ & ?); [|by eauto].
  revert s Hrun. apply rtc_ind_r.
  { repeat split; try done. by eexists. }
  intros s1 s2 Hrun1 [i Hstep] (Hf & Hsv & t & Ht & Hdepth & Hret).
  pose proof (Inv_run _ _ _ _ _ _ _ _ (Inv_init d base) Hrun1) as HI.
  apply step_task_effect in Hstep
    as (t' & Hi & Hp & _
        & [(r & _ & _ & ->)
          |(pc' & news & Ht' & _ & Hwhen & _ & Hmove & _ & _ & Hsaved)]).
  { repeat split; try done. by exists t. }
  rewrite Ht in Hi. destruct i as [|i]; [|done]. cbn in Hi.
  injection Hi as <-.
  (* no goroutine gets through the channel *)
  assert (holds_slot (t_pc t) = false) as Hno.
  { destruct (holds_slot (t_pc t)) eqn:Hh; [|done].
    assert (tasks s1 !! 0%nat = Some t) as Hi by (by rewrite Ht).
    pose proof (in_flight_pos s1 0 t Hi Hh) as Hfl.
    rewrite <- (inv_sem d s1 HI) in Hfl.
    destruct (inv_sem_bound d s1 HI); lia. }
  assert (news = []) as ->.
  { destruct Hwhen as [?|[r Hpc]]; [done|]. by rewrite Hpc in Hno. }
  assert (has_fetched (t_pc t) = false) as Hnf.
  { destruct (has_fetched (t_pc t)) eqn:Hh; [|done].
    assert (tasks s1 !! 0%nat = Some t) as Hi by (by rewrite Ht).
    destruct (inv_fetched_all d s1 HI 0%nat t Hi Hh) as (f & Hin & _).
    rewrite Hf in Hin. by apply elem_of_nil in Hin. }
  split; [|split].
  - effect_cases Hmove Hpc; try done; congruence.
  - destruct Hsaved as [->|(rsp & c & Hpc & _)]; [done|].
    by rewrite Hpc in Hno.
  - exists (set_task_pc pc' t). rewrite Ht', Ht. split; [done|].
    split; [done|]. cbn. effect_cases Hmove Hpc; try done.
    + (* the depth check lets depth 0 through *)
      lia.
    + (* nobody else can have recorded the URL *)
      assert (tasks s1 !! 0%nat = Some t) as Hi by (by rewrite Ht).
      assert (visited s1 !! urlStr t = Some true) as Hv
        by (eapply (inv_lost d s1 HI); [done|by rewrite Hpc]).
      destruct (inv_claimed d s1 HI (urlStr t)) as (j & tj & Hj & Hw & _);
        [by rewrite Hv|].
      rewrite Ht in Hj. destruct j as [|j]; [|done]. cbn in Hj.
      injection Hj as <-. by rewrite Hpc in Hw.
Qed.

(** * The further properties on the small site *)

Lemma run_handling :
  Fixture.run_site site (Fixture.burst 7 0) start = Some handling.
Proof. by vm_compute. Qed.

Lemma run_waiting :
  Fixture.run_site site_closed (Fixture.burst 5 0) start = Some waiting.
Proof. by vm_compute. Qed.

Lemma run_turned_away :
  Fixture.run_site site_off [0%nat] start = Some turned_away.
Proof. by vm_compute. Qed.

Lemma rewritten_links_are_collected_witness :
  Forall2
    (λ n n',
       ∀ i a abs,
         link_attr Fixture.Parse site Fixture.home n i a abs →
         url_path_ok abs →
         Scheme (inherit_scheme Fixture.home abs) = "http"
         ∨ Scheme (inherit_scheme Fixture.home abs) = "https" →
         collected Fixture.home abs
         ∈ (collectLinks Fixture.Parse site Fixture.home_doc Fixture.home).1
           ++ (collectLinks Fixture.Parse site Fixture.home_doc Fixture.home).2
         ∧ ∃ a', Attr n' !! i = Some a'
                 ∧ filepath.Join
                     [filepath.Dir (makeLocalPath site Fixture.home); Val a']
                   = makeLocalPath site (collected Fixture.home abs))
    (flatten Fixture.home_doc)
    (flatten (rewriteLinks Fixture.Parse site Fixture.home_doc Fixture.home
                (makeLocalPath site Fixture.home))).
Proof.
  apply (rewritten_links_are_collected Fixture.Parse site Fixture.home_doc
           Fixture.home).
  - by vm_compute.
  - by vm_compute.
  - by right.
Defined.


Lemma wait_group_counts_running_witness :
  wg finished = Z.of_nat (running finished)
  ∧ (wg finished = 0
     ↔ ∀ t, t ∈ tasks finished → returned (t_pc t) = true).
Proof.
  apply (wait_group_counts_running Fixture.Parse site Fixture.Get
           Fixture.html_Parse Fixture.always Fixture.always
           Fixture.home finished).
  apply (run_rtc _ _ _ _ _ _ in_turn). exact run_finished.
Defined.

Lemma returned_goroutines_hold_nothing_witness :
  (∀ i, visitedMu finished = Some i →
        ∃ t, tasks finished !! i = Some t ∧ in_critical (t_pc t) = true)
  ∧ ((∀ t, t ∈ tasks finished → returned (t_pc t) = true) →
     visitedMu finished = None ∧ sem finished = 0%nat).
Proof.
  apply (returned_goroutines_hold_nothing Fixture.Parse site Fixture.Get
           Fixture.html_Parse Fixture.always Fixture.always
           Fixture.home finished).
  apply (run_rtc _ _ _ _ _ _ in_turn). exact run_finished.
Defined.

Lemma run_never_deadlocks_witness :
  ∃ s', step Fixture.Parse site0 Fixture.Get Fixture.html_Parse
             Fixture.always Fixture.always expanded s'.
Proof.
  apply (run_never_deadlocks Fixture.Parse site0 Fixture.Get
           Fixture.html_Parse Fixture.always Fixture.always
           Fixture.home expanded).
  - apply (run_rtc _ _ _ _ _ _ (Fixture.burst 8 0)). exact run_expanded.
  - done.
  - by vm_compute.
  - exists (mkTask (at_path "/about") 1 PStart). split; [|done].
    apply (list_elem_of_lookup_2 _ 3%nat). by vm_compute.
Defined.

Lemma task_depths_bounded_witness :
  0 ≤ t_depth (mkTask (at_path "/about") 1 PStart)
    ≤ Z.max 0 (maxDepth site0 + 1).
Proof.
  apply (task_depths_bounded Fixture.Parse site0 Fixture.Get
           Fixture.html_Parse Fixture.always Fixture.always
           Fixture.home expanded).
  - done.
  - apply (run_rtc _ _ _ _ _ _ (Fixture.burst 8 0)). exact run_expanded.
  - apply (list_elem_of_lookup_2 _ 3%nat). by vm_compute.
Defined.

Lemma saved_files_come_from_fetches_witness :
  saved_from Fixture.Parse site Fixture.Get Fixture.html_Parse
             Fixture.always Fixture.always finished
             "example.com/logo.png" (RawBody "PNG").
Proof.
  apply (saved_files_come_from_fetches Fixture.Parse site Fixture.Get
           Fixture.html_Parse Fixture.always Fixture.always
           Fixture.home finished "example.com/logo.png" (RawBody "PNG")).
  - apply (run_rtc _ _ _ _ _ _ in_turn). exact run_finished.
  - apply (list_elem_of_lookup_2 _ 1%nat). by vm_compute.
Defined.

Lemma fetched_urls_are_visited_witness :
  (∀ f, f ∈ fetched finished → visited finished !! f_url f = Some true)
  ∧ (∀ x, is_Some (visited finished !! x) →
          visited finished !! x = Some true
          ∧ ∃ t, t ∈ tasks finished ∧ urlStr t = x ∧ won (t_pc t) = true
                 ∧ t_depth t ≤ maxDepth site).
Proof.
  apply (fetched_urls_are_visited Fixture.Parse site Fixture.Get
           Fixture.html_Parse Fixture.always Fixture.always
           Fixture.home finished).
  apply (run_rtc _ _ _ _ _ _ in_turn). exact run_finished.
Defined.

Lemma run_only_adds_witness :
  (∀ x, is_Some (visited start !! x) → is_Some (visited finished !! x))
  ∧ fetched start `prefix_of` fetched finished
  ∧ saved start `suffix_of` saved finished
  ∧ ∀ i t, tasks start !! i = Some t →
           ∃ t', tasks finished !! i = Some t'
                 ∧ t_url t' = t_url t ∧ t_depth t' = t_depth t.
Proof.
  apply (run_only_adds Fixture.Parse site Fixture.Get
           Fixture.html_Parse Fixture.always Fixture.always start finished).
  apply (run_rtc _ _ _ _ _ _ in_turn). exact run_finished.
Defined.


Lemma negative_depth_fetches_nothing_witness :
  (turned_away = start ∨ turned_away = finish 0 Skipped start)
  ∧ visited turned_away = ∅ ∧ fetched turned_away = []
  ∧ saved turned_away = [].
Proof.
  apply (negative_depth_fetches_nothing Fixture.url_Parse Fixture.Parse
           Fixture.Get Fixture.html_Parse Fixture.always Fixture.always
           "https://example.com/" 5 (-1) site_off start turned_away).
  - by vm_compute.
  - done.
  - apply (run_rtc _ _ _ _ _ _ [0%nat]). exact run_turned_away.
Defined.

Lemma zero_limit_fetches_nothing_witness :
  fetched waiting = [] ∧ saved waiting = []
  ∧ ∃ t, tasks waiting = [t] ∧ returned (t_pc t) = false.
Proof.
  apply (zero_limit_fetches_nothing Fixture.url_Parse Fixture.Parse
           Fixture.Get Fixture.html_Parse Fixture.always Fixture.always
           "https://example.com/" 1 site_closed start waiting).
  - by vm_compute.
  - done.
  - apply (run_rtc _ _ _ _ _ _ (Fixture.burst 5 0)). exact run_waiting.
Defined.
